(** * FGAccelerations: derivative evaluation of the JSBSim rigid-body model

    A shallow embedding of [src/models/FGAccelerations.cpp]: the rotational
    and translational rate derivatives, the gravity selection, the attitude
    derivative, the projected Gauss-Seidel contact resolver and the per-tick
    orchestrator, followed by the properties established about them.

    The C++ type [double] is embedded through the interface [Scalar]: the
    operations the source applies to doubles, in the order the source applies
    them.  Every definition below is generic in that interface, so each one
    runs both on IEEE binary64 ([float_Scalar]) and on exact rationals
    ([Qc_Scalar]).  Properties that only follow the data flow of the code hold
    for every instance.  Properties that need algebra (cancelling a division,
    comparing against bounds) are stated for instances that satisfy the laws
    of a field ([FieldLaws]) or of a total order ([OrderLaws]); binary64
    satisfies those only up to rounding and in the absence of NaN, so there
    they describe the computation in exact arithmetic.  What binary64 keeps of
    the order is [ComparisonLaws], under which a result may be not a number.
    A division by zero (a zero mass, a contact whose effective mass is zero)
    is a violated precondition of the source; no property below relies on its
    value. *)

From Stdlib Require Import ZArith List Bool Lia Field.
From Stdlib Require Import QArith Qcanon.
From Stdlib Require Import Floats.
Import ListNotations.

Set Implicit Arguments.

(** ** The arithmetic of [double] *)

Class Scalar (F : Type) : Type := {
  F0   : F;                       (* the literal 0.0 *)
  F1   : F;                       (* the literal 1.0 *)
  of_Z : Z -> F;                  (* conversion of an integer, and integral literals *)
  Fadd : F -> F -> F;
  Fsub : F -> F -> F;
  Fmul : F -> F -> F;
  Fdiv : F -> F -> F;
  Fopp : F -> F;
  fabs : F -> F;
  Fltb : F -> F -> bool;          (* x < y *)
  Fleb : F -> F -> bool           (* x <= y *)
}.

Declare Scope scalar_scope.
Delimit Scope scalar_scope with F.
Infix "+" := Fadd : scalar_scope.
Infix "-" := Fsub : scalar_scope.
Infix "*" := Fmul : scalar_scope.
Infix "/" := Fdiv : scalar_scope.
Notation "- x" := (Fopp x) : scalar_scope.
Infix "<?" := Fltb : scalar_scope.
Infix "<=?" := Fleb : scalar_scope.

(** [x > y] of the source is [y < x]. *)
Definition Fgtb {F} `{Scalar F} (x y : F) : bool := Fltb y x.

(** The laws of exact arithmetic.  The inverse is the quotient [1.0 / x] that
    the source writes. *)
Class FieldLaws (F : Type) `{Scalar F} : Prop := {
  F_field : field_theory F0 F1 Fadd Fmul Fsub Fopp Fdiv (fun x => Fdiv F1 x) eq
}.

(** The laws of a total order: [<] is the complement of the converse of [<=],
    and any two values are comparable. *)
Class OrderLaws (F : Type) `{Scalar F} : Prop := {
  Fltb_Fleb  : forall x y : F, Fltb x y = negb (Fleb y x);
  Fleb_total : forall x y : F, Fleb x y = true \/ Fleb y x = true
}.

(** The laws of comparison that binary64 keeps as well: a value compares with
    itself unless it is not a number; a comparison that holds is between two
    values that compare with themselves; and between two such values [<] is
    the complement of the converse of [<=]. *)
Class ComparisonLaws (F : Type) `{Scalar F} : Prop := {
  Fleb_of_numbers : forall x y : F,
    Fleb x y = true -> Fleb x x = true /\ Fleb y y = true;
  Fltb_Fleb_of_numbers : forall x y : F,
    Fleb x x = true -> Fleb y y = true -> Fltb x y = negb (Fleb y x)
}.

Arguments FieldLaws F {_}.
Arguments OrderLaws F {_}.
Arguments ComparisonLaws F {_}.

(** *** IEEE binary64 *)

Definition float_of_Z (z : Z) : float :=
  match z with
  | Z0 => PrimFloat.zero
  | Zpos _ => PrimFloat.of_uint63 (Uint63.of_Z z)
  | Zneg _ => PrimFloat.opp (PrimFloat.of_uint63 (Uint63.of_Z (Z.opp z)))
  end.

#[export] Instance float_Scalar : Scalar float := {|
  F0 := PrimFloat.zero;
  F1 := PrimFloat.one;
  of_Z := float_of_Z;
  Fadd := PrimFloat.add;
  Fsub := PrimFloat.sub;
  Fmul := PrimFloat.mul;
  Fdiv := PrimFloat.div;
  Fopp := PrimFloat.opp;
  fabs := PrimFloat.abs;
  Fltb := PrimFloat.ltb;
  Fleb := PrimFloat.leb
|}.

(** *** Exact rationals *)

Definition Qc_ltb (x y : Qc) : bool :=
  match Qccompare x y with Lt => true | _ => false end.

Definition Qc_leb (x y : Qc) : bool :=
  match Qccompare x y with Gt => false | _ => true end.

Definition Qc_abs (x : Qc) : Qc := if Qc_ltb x (Q2Qc 0) then Qcopp x else x.

#[export] Instance Qc_Scalar : Scalar Qc := {|
  F0 := Q2Qc 0;
  F1 := Q2Qc 1;
  of_Z := fun z => Q2Qc (inject_Z z);
  Fadd := Qcplus;
  Fsub := Qcminus;
  Fmul := Qcmult;
  Fdiv := Qcdiv;
  Fopp := Qcopp;
  fabs := Qc_abs;
  Fltb := Qc_ltb;
  Fleb := Qc_leb
|}.

(** ** Vectors, matrices and quaternions

    Modelled from the spec: the classes [FGColumnVector3], [FGMatrix33] and
    [FGQuaternion] are declared outside [src]; their operators are the
    component formulas of three-dimensional vector algebra that the spec
    names (sum, difference, scaling, division by a scalar, dot product,
    cross product written [*] between two vectors in the source, matrix by
    vector product, quaternion product). *)

Section LinearAlgebra.
Context {F : Type} `{Scalar F}.
Local Open Scope scalar_scope.

Record FGColumnVector3 : Type := Vec3 { vx : F; vy : F; vz : F }.

Record FGMatrix33 : Type := Mat33 {
  row1 : FGColumnVector3;
  row2 : FGColumnVector3;
  row3 : FGColumnVector3
}.

Record FGQuaternion : Type := Quat { qw : F; qx : F; qy : F; qz : F }.

(** [v.InitMatrix()]: every entry becomes 0.0. *)
Definition InitMatrix : FGColumnVector3 := Vec3 F0 F0 F0.

Definition vadd (a b : FGColumnVector3) : FGColumnVector3 :=
  Vec3 (vx a + vx b) (vy a + vy b) (vz a + vz b).

Definition vsub (a b : FGColumnVector3) : FGColumnVector3 :=
  Vec3 (vx a - vx b) (vy a - vy b) (vz a - vz b).

(** [k * v] *)
Definition smul (k : F) (a : FGColumnVector3) : FGColumnVector3 :=
  Vec3 (k * vx a) (k * vy a) (k * vz a).

(** [v / k] *)
Definition vdiv (a : FGColumnVector3) (k : F) : FGColumnVector3 :=
  Vec3 (vx a / k) (vy a / k) (vz a / k).

(** [a * b] between two vectors: the cross product. *)
Definition cross (a b : FGColumnVector3) : FGColumnVector3 :=
  Vec3 (vy a * vz b - vz a * vy b)
       (vz a * vx b - vx a * vz b)
       (vx a * vy b - vy a * vx b).

Definition DotProduct (a b : FGColumnVector3) : F :=
  vx a * vx b + vy a * vy b + vz a * vz b.

(** [M * v] *)
Definition mvmul (m : FGMatrix33) (a : FGColumnVector3) : FGColumnVector3 :=
  Vec3 (DotProduct (row1 m) a) (DotProduct (row2 m) a) (DotProduct (row3 m) a).

(** Quaternion product, and the kinematic relation of [GetQDot]: the
    attitude multiplied by the angular velocity taken as a quaternion with
    zero scalar part, scaled by one half. *)
Definition qmul (p q : FGQuaternion) : FGQuaternion :=
  Quat (qw p * qw q - qx p * qx q - qy p * qy q - qz p * qz q)
       (qw p * qx q + qx p * qw q + qy p * qz q - qz p * qy q)
       (qw p * qy q - qx p * qz q + qy p * qw q + qz p * qx q)
       (qw p * qz q + qx p * qy q - qy p * qx q + qz p * qw q).

Definition qscale (k : F) (q : FGQuaternion) : FGQuaternion :=
  Quat (k * qw q) (k * qx q) (k * qy q) (k * qz q).

Definition GetQDot (q : FGQuaternion) (PQR : FGColumnVector3) : FGQuaternion :=
  qscale (F1 / of_Z 2) (qmul q (Quat F0 (vx PQR) (vy PQR) (vz PQR))).

(** Modelled from the spec: [Constrain] belongs to the base class
    [FGJSBBase], outside [src]; it clamps [value] to [[min, max]], testing
    the lower bound first. *)
Definition Constrain (min value max : F) : F :=
  if value <? min then min else if Fgtb value max then max else value.

End LinearAlgebra.

Arguments FGColumnVector3 F : clear implicits.
Arguments FGMatrix33 F : clear implicits.
Arguments FGQuaternion F : clear implicits.

Declare Scope vec_scope.
Delimit Scope vec_scope with V.
Infix "+" := vadd : vec_scope.
Infix "-" := vsub : vec_scope.
Infix "*x" := cross (at level 40, left associativity) : vec_scope.
Infix "*s" := smul (at level 40, left associativity) : vec_scope.
Infix "/s" := vdiv (at level 40, left associativity) : vec_scope.
Infix "*v" := mvmul (at level 40, left associativity) : vec_scope.

(** ** The model object and its surroundings *)

(** The selector [gravType] is an [int] bound to the property
    [simulation/gravity-model]; the enumeration [eGravType] of the header
    gives its two recognised values, [gtStandard] first and [gtWGS84] second. *)
Definition gtStandard : Z := 0.
Definition gtWGS84 : Z := 1.

(** Calls made to collaborators whose code is outside [src]; they are recorded
    in the order in which they happen. *)
Inductive Event : Type :=
| RunPreFunctions
| RunPostFunctions
| UpdateForcesAndMoments.

Section Model.
Context {F : Type} `{Scalar F}.
Local Open Scope scalar_scope.

Local Abbreviation Vec := (FGColumnVector3 F).
Local Abbreviation Mat := (FGMatrix33 F).

(** The structure [in] of inputs, written by the executive before each call. *)
Record Inputs : Type := {
  J : Mat;
  Jinv : Mat;
  Ti2b : Mat;
  Tb2i : Mat;
  Tec2b : Mat;
  Tl2b : Mat;
  qAttitudeECI : FGQuaternion F;
  Moment : Vec;
  Force : Vec;
  J2Grav : Vec;
  vPQRi : Vec;
  vPQR : Vec;
  vUVW : Vec;
  vInertialPosition : Vec;
  vOmegaPlanet : Vec;
  DeltaT : F;
  Mass : F;
  GAccel : F
}.

(** The object itself: the selector, the derivative fields, and the
    scheduling rate inherited from [FGModel]. *)
Record FGAccelerations : Type := {
  gravType : Z;
  vPQRdot : Vec;
  vPQRidot : Vec;
  vUVWdot : Vec;
  vUVWidot : Vec;
  vGravAccel : Vec;
  vBodyAccel : Vec;
  vQtrndot : FGQuaternion F;
  rate : Z;
  inp : Inputs
}.

(** One Lagrange multiplier of the ground reactions. *)
Record LagrangeMultiplier : Type := {
  ForceJacobian : Vec;
  MomentJacobian : Vec;
  Min : F;
  Max : F;
  value : F
}.

(** What the resolver reaches through [FDMExec]: the multipliers that
    [MultiplierIterator] yields, in its order, the terrain velocities of the
    ground callback, and the record of calls to collaborators. *)
Record FGFDMExec : Type := {
  multipliers : list LagrangeMultiplier;
  TerrainVelocity : Vec;
  TerrainAngularVelocity : Vec;
  calls : list Event
}.

Definition set_vPQRdot (v : Vec) (m : FGAccelerations) : FGAccelerations :=
  {| gravType := gravType m; vPQRdot := v; vPQRidot := vPQRidot m;
     vUVWdot := vUVWdot m; vUVWidot := vUVWidot m; vGravAccel := vGravAccel m;
     vBodyAccel := vBodyAccel m; vQtrndot := vQtrndot m; rate := rate m;
     inp := inp m |}.

Definition set_vPQRidot (v : Vec) (m : FGAccelerations) : FGAccelerations :=
  {| gravType := gravType m; vPQRdot := vPQRdot m; vPQRidot := v;
     vUVWdot := vUVWdot m; vUVWidot := vUVWidot m; vGravAccel := vGravAccel m;
     vBodyAccel := vBodyAccel m; vQtrndot := vQtrndot m; rate := rate m;
     inp := inp m |}.

Definition set_vUVWdot (v : Vec) (m : FGAccelerations) : FGAccelerations :=
  {| gravType := gravType m; vPQRdot := vPQRdot m; vPQRidot := vPQRidot m;
     vUVWdot := v; vUVWidot := vUVWidot m; vGravAccel := vGravAccel m;
     vBodyAccel := vBodyAccel m; vQtrndot := vQtrndot m; rate := rate m;
     inp := inp m |}.

Definition set_vUVWidot (v : Vec) (m : FGAccelerations) : FGAccelerations :=
  {| gravType := gravType m; vPQRdot := vPQRdot m; vPQRidot := vPQRidot m;
     vUVWdot := vUVWdot m; vUVWidot := v; vGravAccel := vGravAccel m;
     vBodyAccel := vBodyAccel m; vQtrndot := vQtrndot m; rate := rate m;
     inp := inp m |}.

Definition set_vGravAccel (v : Vec) (m : FGAccelerations) : FGAccelerations :=
  {| gravType := gravType m; vPQRdot := vPQRdot m; vPQRidot := vPQRidot m;
     vUVWdot := vUVWdot m; vUVWidot := vUVWidot m; vGravAccel := v;
     vBodyAccel := vBodyAccel m; vQtrndot := vQtrndot m; rate := rate m;
     inp := inp m |}.

Definition set_vBodyAccel (v : Vec) (m : FGAccelerations) : FGAccelerations :=
  {| gravType := gravType m; vPQRdot := vPQRdot m; vPQRidot := vPQRidot m;
     vUVWdot := vUVWdot m; vUVWidot := vUVWidot m; vGravAccel := vGravAccel m;
     vBodyAccel := v; vQtrndot := vQtrndot m; rate := rate m;
     inp := inp m |}.

Definition set_vQtrndot (q : FGQuaternion F) (m : FGAccelerations) : FGAccelerations :=
  {| gravType := gravType m; vPQRdot := vPQRdot m; vPQRidot := vPQRidot m;
     vUVWdot := vUVWdot m; vUVWidot := vUVWidot m; vGravAccel := vGravAccel m;
     vBodyAccel := vBodyAccel m; vQtrndot := q; rate := rate m;
     inp := inp m |}.

Definition set_value (x : F) (c : LagrangeMultiplier) : LagrangeMultiplier :=
  {| ForceJacobian := ForceJacobian c; MomentJacobian := MomentJacobian c;
     Min := Min c; Max := Max c; value := x |}.

Definition set_multipliers (l : list LagrangeMultiplier) (fdm : FGFDMExec) : FGFDMExec :=
  {| multipliers := l; TerrainVelocity := TerrainVelocity fdm;
     TerrainAngularVelocity := TerrainAngularVelocity fdm; calls := calls fdm |}.

Definition record_call (e : Event) (fdm : FGFDMExec) : FGFDMExec :=
  {| multipliers := multipliers fdm; TerrainVelocity := TerrainVelocity fdm;
     TerrainAngularVelocity := TerrainAngularVelocity fdm;
     calls := calls fdm ++ [e] |}.

(** *** InitModel

    [FGQuaternion(0,0,0)] uses a three-angle constructor that is outside
    [src]; its value is the parameter [q000]. *)
Definition InitModel (q000 : FGQuaternion F) (m : FGAccelerations)
  : bool * FGAccelerations :=
  let m := set_vPQRidot InitMatrix m in
  let m := set_vUVWidot InitMatrix m in
  let m := set_vGravAccel InitMatrix m in
  let m := set_vBodyAccel InitMatrix m in
  let m := set_vQtrndot q000 m in
  (true, m).

(** *** CalculatePQRdot *)
Definition CalculatePQRdot (m : FGAccelerations) : FGAccelerations :=
  let i := inp m in
  let m := set_vPQRidot
             (Jinv i *v (Moment i - vPQRi i *x (J i *v vPQRi i)))%V m in
  set_vPQRdot (vPQRidot m - vPQRi i *x (Ti2b i *v vOmegaPlanet i))%V m.

(** *** CalculateQuatdot *)
Definition CalculateQuatdot (m : FGAccelerations) : FGAccelerations :=
  set_vQtrndot (GetQDot (qAttitudeECI (inp m)) (vPQRi (inp m))) m.

(** *** CalculateUVWdot

    The [switch] on [gravType] has the two cases and no [default]: for any
    other value no branch runs. *)
Definition CalculateUVWdot (m : FGAccelerations) : FGAccelerations :=
  let i := inp m in
  let m := set_vBodyAccel (Force i /s Mass i)%V m in
  let m := set_vUVWdot
             (vBodyAccel m
              - (vPQR i + of_Z 2 *s (Ti2b i *v vOmegaPlanet i)) *x vUVW i)%V m in
  let m := set_vUVWdot
             (vUVWdot m
              - Ti2b i *v (vOmegaPlanet i *x (vOmegaPlanet i *x vInertialPosition i)))%V
             m in
  let m :=
    if Z.eqb (gravType m) gtStandard then
      set_vGravAccel (Tl2b i *v Vec3 F0 F0 (GAccel i))%V m
    else if Z.eqb (gravType m) gtWGS84 then
      set_vGravAccel (Tec2b i *v J2Grav i)%V m
    else m in
  let m := set_vUVWdot (vUVWdot m + vGravAccel m)%V m in
  set_vUVWidot (Tb2i i *v (vBodyAccel m + vGravAccel m))%V m.

End Model.

Arguments Inputs F : clear implicits.
Arguments FGAccelerations F : clear implicits.
Arguments LagrangeMultiplier F : clear implicits.
Arguments FGFDMExec F : clear implicits.

(** ** The contact resolver *)

Section Resolver.
Context {F : Type} `{Scalar F}.
Local Open Scope scalar_scope.

Local Abbreviation Vec := (FGColumnVector3 F).
Local Abbreviation Mat := (FGMatrix33 F).

(** [std::vector<double>] read and written by index.  The source only uses
    indices inside the vector; outside it a read gives 0.0 and a write does
    nothing here. *)
Definition get (l : list F) (i : nat) : F := nth i l F0.

Fixpoint upd (l : list F) (i : nat) (x : F) : list F :=
  match l, i with
  | [], _ => []
  | _ :: t, O => x :: t
  | h :: t, S k => h :: upd t k x
  end.

Definition getv (l : list Vec) (i : nat) : Vec := nth i l InitMatrix.

(** [for (int i = lo; i < hi; i++) body] on the state [s]. *)
Definition for_range {S : Type} (lo hi : nat) (body : nat -> S -> S) (s : S) : S :=
  fold_left (fun s i => body i s) (seq lo (hi - lo)) s.

(** The literal [1E-5]: the double nearest to one hundred-thousandth, which is
    what the correctly rounded quotient gives. *)
Definition tolerance : F := F1 / of_Z 100000.

(** *** Assembling the linear system

    [a] holds J*M^-1*J^T, row by row; the part left of the diagonal is copied
    from the rows already filled. *)
Definition assemble (n : nat) (invMass : F) (Ji : Mat) (JacF JacM : list Vec)
  : list F :=
  for_range 0 n (fun i a =>
    let a := for_range 0 i (fun j a => upd a (i * n + j) (get a (j * n + i))) a in
    for_range i n (fun j a =>
      upd a (i * n + j)
          (DotProduct (getv JacF i) (invMass *s getv JacF j)%V
           + DotProduct (getv JacM i) (Ji *v getv JacM j)%V)) a)
    (repeat F0 (n * n)).

(** The right hand side, and the division of every line by its diagonal. *)
Definition prepare (n : nat) (JacF JacM : list Vec) (vdot wdot : Vec) (a : list F)
  : list F * list F :=
  for_range 0 n (fun i (s : list F * list F) =>
    let (a, rhs) := s in
    let d := F1 / get a (i * n + i) in
    let rhs :=
      upd rhs i (- (DotProduct (getv JacF i) vdot + DotProduct (getv JacM i) wdot) * d) in
    let a := for_range 0 n (fun j a => upd a (i * n + j) (get a (i * n + j) * d)) a in
    (a, rhs))
    (a, repeat F0 n).

(** *** Projected Gauss-Seidel *)

(** The body of the loop on [i]: one component, updated in place. *)
Definition sweep_component (n : nat) (a rhs lambdaMin lambdaMax : list F)
  (i : nat) (s : list F * F) : list F * F :=
  let (lambda, norm) := s in
  let lambda0 := get lambda i in
  let dlambda :=
    for_range 0 n (fun j dlambda => dlambda - get a (i * n + j) * get lambda j)
              (get rhs i) in
  let lambda :=
    upd lambda i (Constrain (get lambdaMin i) (lambda0 + dlambda) (get lambdaMax i)) in
  let dlambda := get lambda i - lambda0 in
  (lambda, norm + fabs dlambda).

(** One pass of the loop on [iter]: the new multipliers and [norm]. *)
Definition sweep (n : nat) (a rhs lambdaMin lambdaMax : list F) (lambda : list F)
  : list F * F :=
  for_range 0 n (sweep_component n a rhs lambdaMin lambdaMax) (lambda, F0).

(** [for (iter = 0; iter < 50; iter++) { ...; if (norm < 1E-5) break; }] with
    [fuel] passes left. *)
Fixpoint gauss_seidel (fuel : nat) (n : nat) (a rhs lambdaMin lambdaMax : list F)
  (lambda : list F) : list F :=
  match fuel with
  | O => lambda
  | S fuel' =>
      let (lambda', norm) := sweep n a rhs lambdaMin lambdaMax lambda in
      if norm <? tolerance then lambda'
      else gauss_seidel fuel' n a rhs lambdaMin lambdaMax lambda'
  end.

(** The write-back loop: the multiplier under the iterator receives
    [lambda[i++]]. *)
Fixpoint save_multipliers (ms : list (LagrangeMultiplier F)) (lambda : list F)
  (i : nat) : list (LagrangeMultiplier F) :=
  match ms with
  | [] => []
  | c :: ms' => set_value (get lambda i) c :: save_multipliers ms' lambda (S i)
  end.

(** The targets [vdot] and [wdot] of the right hand side. *)
Definition target_vdot (dt : F) (fdm : FGFDMExec F) (m : FGAccelerations F) : Vec :=
  if Fgtb dt F0
  then (vUVWdot m + (vUVW (inp m) - Tec2b (inp m) *v TerrainVelocity fdm) /s dt)%V
  else vUVWdot m.

Definition target_wdot (dt : F) (fdm : FGFDMExec F) (m : FGAccelerations F) : Vec :=
  if Fgtb dt F0
  then (vPQRdot m + (vPQR (inp m) - Tec2b (inp m) *v TerrainAngularVelocity fdm) /s dt)%V
  else vPQRdot m.

(** The multipliers at the end of the Gauss-Seidel loop, for a non-empty
    contact set. *)
Definition solve_multipliers (dt : F) (fdm : FGFDMExec F) (m : FGAccelerations F)
  : list F :=
  let ms := multipliers fdm in
  let invMass := F1 / Mass (inp m) in
  let JacF := map (@ForceJacobian F) ms in
  let JacM := map (@MomentJacobian F) ms in
  let lambda := map (@value F) ms in
  let lambdaMax := map (@Max F) ms in
  let lambdaMin := map (@Min F) ms in
  let n := length ms in
  let a := assemble n invMass (Jinv (inp m)) JacF JacM in
  let (a, rhs) :=
    prepare n JacF JacM (target_vdot dt fdm m) (target_wdot dt fdm m) a in
  gauss_seidel 50 n a rhs lambdaMin lambdaMax lambda.

(** The total contact force and moment. *)
Definition contact_loads (n : nat) (lambda : list F) (JacF JacM : list Vec)
  : Vec * Vec :=
  for_range 0 n (fun i (s : Vec * Vec) =>
    let (Fc, Mc) := s in
    ((Fc + get lambda i *s getv JacF i)%V, (Mc + get lambda i *s getv JacM i)%V))
    (InitMatrix, InitMatrix).

(** *** ResolveFrictionForces *)
Definition ResolveFrictionForces (dt : F) (fdm : FGFDMExec F) (m : FGAccelerations F)
  : FGAccelerations F * FGFDMExec F :=
  let ms := multipliers fdm in
  let n := length ms in
  match n with
  | O => (m, fdm)
  | S _ =>
      let invMass := F1 / Mass (inp m) in
      let JacF := map (@ForceJacobian F) ms in
      let JacM := map (@MomentJacobian F) ms in
      let lambda := solve_multipliers dt fdm m in
      let (Fc, Mc) := contact_loads n lambda JacF JacM in
      let accel := (invMass *s Fc)%V in
      let omegadot := (Jinv (inp m) *v Mc)%V in
      let m := set_vUVWdot (vUVWdot m + accel)%V m in
      let m := set_vUVWidot (vUVWidot m + Tb2i (inp m) *v accel)%V m in
      let m := set_vPQRdot (vPQRdot m + omegadot)%V m in
      let m := set_vPQRidot (vPQRidot m + omegadot)%V m in
      let fdm := set_multipliers (save_multipliers ms lambda 0) fdm in
      (m, record_call UpdateForcesAndMoments fdm)
  end.

(** *** InitializeDerivatives *)
Definition InitializeDerivatives (fdm : FGFDMExec F) (m : FGAccelerations F)
  : FGAccelerations F * FGFDMExec F :=
  let m := CalculatePQRdot m in
  let m := CalculateUVWdot m in
  let m := CalculateQuatdot m in
  ResolveFrictionForces F0 fdm m.

(** *** Run

    [FGModel::Run] belongs to the base class, outside [src]: its result for
    the current call is the parameter [base].  [Debug(2)] prints nothing:
    every branch of [Debug] that can be reached with [from == 2] is empty. *)
Definition Run (base : bool) (Holding : bool) (fdm : FGFDMExec F)
  (m : FGAccelerations F) : bool * (FGAccelerations F * FGFDMExec F) :=
  if base then (true, (m, fdm))
  else if Holding then (false, (m, fdm))
  else
    let fdm := record_call RunPreFunctions fdm in
    let m := CalculatePQRdot m in
    let m := CalculateUVWdot m in
    let m := CalculateQuatdot m in
    let (m, fdm) := ResolveFrictionForces (DeltaT (inp m) * of_Z (rate m)) fdm m in
    let fdm := record_call RunPostFunctions fdm in
    (false, (m, fdm)).

End Resolver.

(** ** Reference definitions for the resolver

    The projected Gauss-Seidel pass in the words of the spec: the components
    are visited in order; the components already visited ([done]) carry their
    new values, the others ([todo]) their old ones; the visited component
    becomes the clamp of its old value plus the residual of its line, and
    [norm] grows by the absolute value of its change. *)

Section Reference.
Context {F : Type} `{Scalar F}.
Local Open Scope scalar_scope.

(** [rhs[i]] minus the products of line [i] of [a] with [lambda]. *)
Definition residual (n : nat) (a rhs : list F) (i : nat) (lambda : list F) : F :=
  fold_left (fun d j => d - get a (i * n + j) * get lambda j) (seq 0 n) (get rhs i).

Fixpoint pgs_pass_from (n : nat) (a rhs lambdaMin lambdaMax : list F)
  (done todo : list F) (norm : F) : list F * F :=
  match todo with
  | [] => (done, norm)
  | x :: rest =>
      let i := length done in
      let x' := Constrain (get lambdaMin i)
                          (x + residual n a rhs i (done ++ todo))
                          (get lambdaMax i) in
      pgs_pass_from n a rhs lambdaMin lambdaMax (done ++ [x']) rest
                    (norm + fabs (x' - x))
  end.

Definition pgs_pass (n : nat) (a rhs lambdaMin lambdaMax : list F) (lambda : list F)
  : list F * F :=
  pgs_pass_from n a rhs lambdaMin lambdaMax [] lambda F0.

(** The multipliers after [k] passes. *)
Fixpoint passes (k : nat) (n : nat) (a rhs lambdaMin lambdaMax : list F)
  (lambda : list F) : list F :=
  match k with
  | O => lambda
  | S k' =>
      fst (pgs_pass n a rhs lambdaMin lambdaMax
                    (passes k' n a rhs lambdaMin lambdaMax lambda))
  end.

(** [norm] of the pass number [k], counted from 0. *)
Definition pass_norm (k : nat) (n : nat) (a rhs lambdaMin lambdaMax : list F)
  (lambda : list F) : F :=
  snd (pgs_pass n a rhs lambdaMin lambdaMax
                (passes k n a rhs lambdaMin lambdaMax lambda)).

(** The system that [ResolveFrictionForces] hands to the Gauss-Seidel loop. *)
Definition contact_system (dt : F) (fdm : FGFDMExec F) (m : FGAccelerations F)
  : list F * list F :=
  let ms := multipliers fdm in
  let n := length ms in
  prepare n (map (@ForceJacobian F) ms) (map (@MomentJacobian F) ms)
          (target_vdot dt fdm m) (target_wdot dt fdm m)
          (assemble n (F1 / Mass (inp m)) (Jinv (inp m))
                    (map (@ForceJacobian F) ms) (map (@MomentJacobian F) ms)).

(** A result of [Run] reports that no work was done when every call that
    returns it leaves the object and its surroundings as they were. *)
Definition reports_no_work (r : bool) : Prop :=
  forall (base Holding : bool) (fdm : FGFDMExec F) (m : FGAccelerations F),
    fst (Run base Holding fdm m) = r -> snd (Run base Holding fdm m) = (m, fdm).

(** The multiplier lies between the bounds of its constraint. *)
Definition within_bounds (c : LagrangeMultiplier F) : Prop :=
  (Min c <=? value c) = true /\ (value c <=? Max c) = true.

(** A value that does not compare with itself: in binary64, a NaN. *)
Definition not_a_number (x : F) : Prop := (x <=? x) = false.

End Reference.

(** ** A vehicle at rest on flat ground

    The scenario used to run the definitions: identity rotations and inertia,
    no applied load, no motion, mass 3 and gravity 32.2, one contact whose
    force Jacobian points against the body z axis, along which gravity pulls. *)

Section Scenario.
Context {F : Type} `{Scalar F}.

Definition identity33 : FGMatrix33 F :=
  Mat33 (Vec3 F1 F0 F0) (Vec3 F0 F1 F0) (Vec3 F0 F0 F1).

Definition rest_inputs : Inputs F :=
  {| J := identity33; Jinv := identity33; Ti2b := identity33; Tb2i := identity33;
     Tec2b := identity33; Tl2b := identity33;
     qAttitudeECI := Quat F1 F0 F0 F0;
     Moment := InitMatrix; Force := InitMatrix;
     J2Grav := Vec3 F0 F0 (Fdiv (of_Z 322) (of_Z 10));
     vPQRi := InitMatrix; vPQR := InitMatrix; vUVW := InitMatrix;
     vInertialPosition := InitMatrix; vOmegaPlanet := InitMatrix;
     DeltaT := Fdiv F1 (of_Z 120); Mass := of_Z 3;
     GAccel := Fdiv (of_Z 322) (of_Z 10) |}.

(** The object after construction, with the selector set to [g]. *)
Definition rest_model (g : Z) : FGAccelerations F :=
  {| gravType := g;
     vPQRdot := InitMatrix; vPQRidot := InitMatrix;
     vUVWdot := InitMatrix; vUVWidot := InitMatrix;
     vGravAccel := InitMatrix; vBodyAccel := InitMatrix;
     vQtrndot := Quat F1 F0 F0 F0; rate := 1; inp := rest_inputs |}.

(** The same object once the kinematics have run. *)
Definition falling_model (g : Z) : FGAccelerations F :=
  CalculateQuatdot (CalculateUVWdot (CalculatePQRdot (rest_model g))).

Definition wheel (lo hi warm : F) : LagrangeMultiplier F :=
  {| ForceJacobian := Vec3 F0 F0 (Fopp F1); MomentJacobian := InitMatrix;
     Min := lo; Max := hi; value := warm |}.

Definition ground (cs : list (LagrangeMultiplier F)) : FGFDMExec F :=
  {| multipliers := cs; TerrainVelocity := InitMatrix;
     TerrainAngularVelocity := InitMatrix; calls := [] |}.

End Scenario.

(** ** Reference definitions for the linear system and the passes *)

Section SystemReference.
Context {F : Type} `{Scalar F}.
Local Open Scope scalar_scope.

(** The three computations that [Run] and [InitializeDerivatives] make before
    the contact resolver, in their order. *)
Definition kinematics (m : FGAccelerations F) : FGAccelerations F :=
  CalculateQuatdot (CalculateUVWdot (CalculatePQRdot m)).

(** The entry that the assembly loop computes for the contacts [i] and [j]. *)
Definition effective_mass (invMass : F) (Ji : FGMatrix33 F)
  (JacF JacM : list (FGColumnVector3 F)) (i j : nat) : F :=
  DotProduct (getv JacF i) (invMass *s getv JacF j)%V
  + DotProduct (getv JacM i) (Ji *v getv JacM j)%V.

(** [rhs[i]] minus the products of line [i] of [a] with the multipliers other
    than the one of index [i]. *)
Definition others_residual (n : nat) (a rhs : list F) (i : nat) (lambda : list F) : F :=
  fold_left (fun d j => d - get a (i * n + j) * get lambda j)
            (seq 0 i ++ seq (S i) (n - S i)) (get rhs i).

End SystemReference.

(** ** More of the scenario

    A second contact, whose force Jacobian lies along the body x axis, and the
    vehicle with a scheduling rate of 0, for which the step [DeltaT * rate]
    of a tick is zero. *)

Section MoreScenario.
Context {F : Type} `{Scalar F}.

Definition skid (lo hi warm : F) : LagrangeMultiplier F :=
  {| ForceJacobian := Vec3 (Fopp F1) F0 F0; MomentJacobian := InitMatrix;
     Min := lo; Max := hi; value := warm |}.

Definition unscheduled_model (g : Z) : FGAccelerations F :=
  {| gravType := g;
     vPQRdot := InitMatrix; vPQRidot := InitMatrix;
     vUVWdot := InitMatrix; vUVWidot := InitMatrix;
     vGravAccel := InitMatrix; vBodyAccel := InitMatrix;
     vQtrndot := Quat F1 F0 F0 F0; rate := 0; inp := rest_inputs |}.

(** A vehicle that turns about its z axis against one contact whose moment
    Jacobian lies along that axis: the inverse inertia is the diagonal
    (1, 1, 3) and the yaw acceleration before contact is -5. *)
Definition yaw_inputs : Inputs F :=
  {| J := identity33;
     Jinv := Mat33 (Vec3 F1 F0 F0) (Vec3 F0 F1 F0) (Vec3 F0 F0 (of_Z 3));
     Ti2b := identity33; Tb2i := identity33;
     Tec2b := identity33; Tl2b := identity33;
     qAttitudeECI := Quat F1 F0 F0 F0;
     Moment := InitMatrix; Force := InitMatrix;
     J2Grav := InitMatrix;
     vPQRi := InitMatrix; vPQR := InitMatrix; vUVW := InitMatrix;
     vInertialPosition := InitMatrix; vOmegaPlanet := InitMatrix;
     DeltaT := Fdiv F1 (of_Z 120); Mass := of_Z 3;
     GAccel := F0 |}.

Definition yawing_model : FGAccelerations F :=
  {| gravType := gtWGS84;
     vPQRdot := Vec3 F0 F0 (Fopp (of_Z 5)); vPQRidot := Vec3 F0 F0 (Fopp (of_Z 5));
     vUVWdot := InitMatrix; vUVWidot := InitMatrix;
     vGravAccel := InitMatrix; vBodyAccel := InitMatrix;
     vQtrndot := Quat F1 F0 F0 F0; rate := 1; inp := yaw_inputs |}.

Definition yaw_pad (lo hi warm : F) : LagrangeMultiplier F :=
  {| ForceJacobian := InitMatrix; MomentJacobian := Vec3 F0 F0 F1;
     Min := lo; Max := hi; value := warm |}.

End MoreScenario.

(** * Properties *)

(** ** The arithmetic of the rationals *)

#[export] Instance Qc_FieldLaws : FieldLaws Qc.
Proof.
  constructor. simpl.
  assert (inv1 : forall q : Qc, Qcdiv (Q2Qc 1) q = Qcinv q).
  { intro q. unfold Qcdiv. apply Qcmult_1_l. }
  constructor.
  - exact (F_R Qcft).
  - exact (F_1_neq_0 Qcft).
  - intros p q. rewrite inv1. reflexivity.
  - intros p Hp. rewrite inv1. exact (Finv_l Qcft p Hp).
Qed.

#[export] Instance Qc_OrderLaws : OrderLaws Qc.
Proof.
  constructor; simpl; intros x y; unfold Qc_ltb, Qc_leb, Qccompare.
  - rewrite <- (Qcompare_antisym (this x) (this y)).
    destruct (Qcompare (this x) (this y)); reflexivity.
  - rewrite <- (Qcompare_antisym (this x) (this y)).
    destruct (Qcompare (this x) (this y)); simpl; auto.
Qed.

(** ** Frame kinematics and gravity *)

Section Kinematics.
Context {F : Type} `{Scalar F}.
Local Open Scope vec_scope.

(** C1: [CalculatePQRdot] stores Jinv * (Moment - omega_i x (J * omega_i)) as
    the inertial-referenced rotational-rate derivative, and that value minus
    omega_i x (Ti2b * Omega_planet) as the ECEF-referenced one, for every
    input. *)
Theorem CalculatePQRdot_stores (m : FGAccelerations F) :
  vPQRidot (CalculatePQRdot m)
  = Jinv (inp m) *v (Moment (inp m) - vPQRi (inp m) *x (J (inp m) *v vPQRi (inp m)))
  /\ vPQRdot (CalculatePQRdot m)
     = Jinv (inp m) *v (Moment (inp m) - vPQRi (inp m) *x (J (inp m) *v vPQRi (inp m)))
       - vPQRi (inp m) *x (Ti2b (inp m) *v vOmegaPlanet (inp m)).
Proof. split; reflexivity. Qed.

(** The translational computation touches neither the selector nor the inputs. *)
Lemma CalculateUVWdot_gravType (m : FGAccelerations F) :
  gravType (CalculateUVWdot m) = gravType m /\ inp (CalculateUVWdot m) = inp m.
Proof.
  unfold CalculateUVWdot; cbn.
  destruct (Z.eqb (gravType m) gtStandard), (Z.eqb (gravType m) gtWGS84);
    split; reflexivity.
Qed.

(** C2: [CalculateUVWdot] stores Force/Mass minus the Coriolis term minus the
    centripetal term plus the gravity it has just stored as the ECEF-referenced
    translational-rate derivative, and Tb2i * (Force/Mass + gravity) as the
    inertial-referenced one, for every input. *)
Theorem CalculateUVWdot_stores (m : FGAccelerations F) :
  let i := inp m in
  let gravity := vGravAccel (CalculateUVWdot m) in
  vUVWdot (CalculateUVWdot m)
  = Force i /s Mass i
    - (vPQR i + of_Z 2 *s (Ti2b i *v vOmegaPlanet i)) *x vUVW i
    - Ti2b i *v (vOmegaPlanet i *x (vOmegaPlanet i *x vInertialPosition i))
    + gravity
  /\ vUVWidot (CalculateUVWdot m) = Tb2i i *v (Force i /s Mass i + gravity)
  /\ vBodyAccel (CalculateUVWdot m) = Force i /s Mass i.
Proof.
  unfold CalculateUVWdot; cbn.
  destruct (Z.eqb (gravType m) gtStandard), (Z.eqb (gravType m) gtWGS84);
    repeat split; reflexivity.
Qed.

(** C6: with the selector on the constant model the stored gravity is Tl2b
    applied to (0, 0, GAccel); with the selector on the oblate-Earth model it
    is Tec2b applied to the supplied vector J2Grav; in both cases that vector
    is the one added into the two translational derivatives. *)
Theorem gravity_follows_selector (m : FGAccelerations F) :
  let i := inp m in
  let kinematic :=
    Force i /s Mass i
    - (vPQR i + of_Z 2 *s (Ti2b i *v vOmegaPlanet i)) *x vUVW i
    - Ti2b i *v (vOmegaPlanet i *x (vOmegaPlanet i *x vInertialPosition i)) in
  (gravType m = gtStandard ->
     vGravAccel (CalculateUVWdot m) = Tl2b i *v Vec3 F0 F0 (GAccel i)
     /\ vUVWdot (CalculateUVWdot m) = kinematic + Tl2b i *v Vec3 F0 F0 (GAccel i)
     /\ vUVWidot (CalculateUVWdot m)
        = Tb2i i *v (Force i /s Mass i + Tl2b i *v Vec3 F0 F0 (GAccel i)))
  /\ (gravType m = gtWGS84 ->
     vGravAccel (CalculateUVWdot m) = Tec2b i *v J2Grav i
     /\ vUVWdot (CalculateUVWdot m) = kinematic + Tec2b i *v J2Grav i
     /\ vUVWidot (CalculateUVWdot m)
        = Tb2i i *v (Force i /s Mass i + Tec2b i *v J2Grav i)).
Proof.
  cbv zeta. split; intro Hg; unfold CalculateUVWdot; cbn; rewrite Hg; cbn;
    repeat split; reflexivity.
Qed.

(** C10: with the selector on neither recognised value, [CalculateUVWdot]
    leaves the stored gravity as it found it and adds that stale vector into
    both translational derivatives; straight after [InitModel] that vector is
    zero. *)
Theorem unrecognised_selector_reuses_gravity (m : FGAccelerations F) :
  gravType m <> gtStandard ->
  gravType m <> gtWGS84 ->
  let i := inp m in
  vGravAccel (CalculateUVWdot m) = vGravAccel m
  /\ vUVWdot (CalculateUVWdot m)
     = Force i /s Mass i
       - (vPQR i + of_Z 2 *s (Ti2b i *v vOmegaPlanet i)) *x vUVW i
       - Ti2b i *v (vOmegaPlanet i *x (vOmegaPlanet i *x vInertialPosition i))
       + vGravAccel m
  /\ vUVWidot (CalculateUVWdot m) = Tb2i i *v (Force i /s Mass i + vGravAccel m)
  /\ forall q000, vGravAccel (CalculateUVWdot (snd (InitModel q000 m))) = InitMatrix.
Proof.
  intros Hs Hw. apply Z.eqb_neq in Hs. apply Z.eqb_neq in Hw.
  unfold CalculateUVWdot; cbn. rewrite Hs, Hw. repeat split; reflexivity.
Qed.

End Kinematics.

(** ** The Gauss-Seidel loop *)

Section GaussSeidel.
Context {F : Type} `{Scalar F}.
Local Open Scope scalar_scope.

Lemma upd_length (l : list F) (i : nat) (x : F) : length (upd l i x) = length l.
Proof.
  revert i; induction l as [|h t IH]; intros [|i]; simpl; auto.
Qed.

Lemma get_middle (done rest : list F) (x : F) :
  get (done ++ x :: rest) (length done) = x.
Proof. unfold get. apply nth_middle. Qed.

Lemma get_app_l (done rest : list F) (i : nat) :
  (i < length done)%nat -> get (done ++ rest) i = get done i.
Proof. intros Hi. unfold get. now apply app_nth1. Qed.

Lemma upd_middle (done rest : list F) (x y : F) :
  upd (done ++ x :: rest) (length done) y = done ++ y :: rest.
Proof.
  induction done as [|h t IH]; simpl; [reflexivity | now rewrite IH].
Qed.

Lemma for_range_from_zero {S : Type} (n : nat) (body : nat -> S -> S) (s : S) :
  for_range 0 n body s = fold_left (fun s i => body i s) (seq 0 n) s.
Proof. unfold for_range. now rewrite Nat.sub_0_r. Qed.

(** The loop on [i], started in the middle of a pass, is the reference pass
    started at the same place. *)
Lemma sweep_from (n : nat) (a rhs lambdaMin lambdaMax : list F) :
  forall (todo done : list F) (norm : F),
    fold_left (fun s i => sweep_component n a rhs lambdaMin lambdaMax i s)
              (seq (length done) (length todo)) (done ++ todo, norm)
    = pgs_pass_from n a rhs lambdaMin lambdaMax done todo norm.
Proof.
  induction todo as [|x rest IH]; intros done norm.
  - simpl. now rewrite app_nil_r.
  - cbn [length seq fold_left pgs_pass_from].
    unfold sweep_component at 2.
    rewrite for_range_from_zero, get_middle, upd_middle, get_middle.
    fold (residual n a rhs (length done) (done ++ x :: rest)).
    specialize (IH (done ++ [Constrain (get lambdaMin (length done))
                                       (x + residual n a rhs (length done) (done ++ x :: rest))
                                       (get lambdaMax (length done))])).
    rewrite length_app, Nat.add_1_r, <- app_assoc in IH. simpl in IH.
    apply IH.
Qed.

(** One pass of the source is one reference pass. *)
Lemma sweep_is_pgs_pass (a rhs lambdaMin lambdaMax lambda : list F) :
  sweep (length lambda) a rhs lambdaMin lambdaMax lambda
  = pgs_pass (length lambda) a rhs lambdaMin lambdaMax lambda.
Proof.
  unfold sweep, pgs_pass. rewrite for_range_from_zero.
  exact (sweep_from (length lambda) a rhs lambdaMin lambdaMax lambda [] F0).
Qed.

Lemma pgs_pass_from_length (n : nat) (a rhs lambdaMin lambdaMax : list F) :
  forall (todo done : list F) (norm : F),
    length (fst (pgs_pass_from n a rhs lambdaMin lambdaMax done todo norm))
    = (length done + length todo)%nat.
Proof.
  induction todo as [|x rest IH]; intros done norm; simpl.
  - lia.
  - rewrite IH, length_app. simpl. lia.
Qed.

Lemma pgs_pass_length (n : nat) (a rhs lambdaMin lambdaMax lambda : list F) :
  length (fst (pgs_pass n a rhs lambdaMin lambdaMax lambda)) = length lambda.
Proof. unfold pgs_pass. now rewrite pgs_pass_from_length. Qed.

Lemma passes_length (k n : nat) (a rhs lambdaMin lambdaMax lambda : list F) :
  length (passes k n a rhs lambdaMin lambdaMax lambda) = length lambda.
Proof.
  induction k as [|k IH]; simpl; [reflexivity|].
  now rewrite pgs_pass_length.
Qed.

(** Running one pass first and [k] passes next is running [k + 1] passes. *)
Lemma passes_shift (k n : nat) (a rhs lambdaMin lambdaMax lambda : list F) :
  passes k n a rhs lambdaMin lambdaMax
         (fst (pgs_pass n a rhs lambdaMin lambdaMax lambda))
  = passes (S k) n a rhs lambdaMin lambdaMax lambda.
Proof.
  induction k as [|k IH]; [reflexivity|].
  change (passes (S k) n a rhs lambdaMin lambdaMax
                 (fst (pgs_pass n a rhs lambdaMin lambdaMax lambda)))
    with (fst (pgs_pass n a rhs lambdaMin lambdaMax
                 (passes k n a rhs lambdaMin lambdaMax
                    (fst (pgs_pass n a rhs lambdaMin lambdaMax lambda))))).
  now rewrite IH.
Qed.

Lemma pass_norm_shift (k n : nat) (a rhs lambdaMin lambdaMax lambda : list F) :
  pass_norm k n a rhs lambdaMin lambdaMax
            (fst (pgs_pass n a rhs lambdaMin lambdaMax lambda))
  = pass_norm (S k) n a rhs lambdaMin lambdaMax lambda.
Proof. unfold pass_norm. now rewrite passes_shift. Qed.

Lemma gauss_seidel_step (fuel n : nat) (a rhs lambdaMin lambdaMax lambda : list F) :
  gauss_seidel (S fuel) n a rhs lambdaMin lambdaMax lambda
  = (let (lambda', norm) := sweep n a rhs lambdaMin lambdaMax lambda in
     if norm <? tolerance then lambda'
     else gauss_seidel fuel n a rhs lambdaMin lambdaMax lambda').
Proof. reflexivity. Qed.

(** The loop on [iter] with [fuel + 1] passes allowed: it runs [k] passes, at
    least one and at most [fuel + 1]; none before the last one ended with
    [norm] under the tolerance; and if it stopped short of the cap, the last
    one did. *)
Lemma gauss_seidel_runs (a rhs lambdaMin lambdaMax : list F) :
  forall (fuel : nat) (lambda : list F),
    let n := length lambda in
    exists k : nat,
      (1 <= k <= S fuel)%nat
      /\ gauss_seidel (S fuel) n a rhs lambdaMin lambdaMax lambda
         = passes k n a rhs lambdaMin lambdaMax lambda
      /\ (forall j, (j < k - 1)%nat ->
            (pass_norm j n a rhs lambdaMin lambdaMax lambda <? tolerance) = false)
      /\ ((k < S fuel)%nat ->
            (pass_norm (k - 1) n a rhs lambdaMin lambdaMax lambda <? tolerance) = true).
Proof.
  induction fuel as [|fuel IH]; intros lambda n.
  - exists 1%nat. split; [lia|]. split; [|split].
    + cbn [gauss_seidel passes]. subst n. rewrite sweep_is_pgs_pass.
      destruct (pgs_pass (length lambda) a rhs lambdaMin lambdaMax lambda) as [l' nrm].
      simpl. now destruct (nrm <? tolerance).
    + intros j Hj. lia.
    + intros Hcap. lia.
  - rewrite gauss_seidel_step. subst n. rewrite sweep_is_pgs_pass.
    destruct (pgs_pass (length lambda) a rhs lambdaMin lambdaMax lambda)
      as [l' nrm] eqn:Epass.
    destruct (nrm <? tolerance) eqn:Enorm.
    + exists 1%nat. split; [lia|]. split; [|split].
      * cbn [passes]. now rewrite Epass.
      * intros j Hj. lia.
      * intros _. unfold pass_norm. cbn [passes Nat.sub]. now rewrite Epass.
    + assert (Hl' : l' = fst (pgs_pass (length lambda) a rhs lambdaMin lambdaMax lambda))
        by now rewrite Epass.
      assert (Hlen : length l' = length lambda)
        by (rewrite Hl'; apply pgs_pass_length).
      destruct (IH l') as (k & Hk & Hrun & Hbefore & Hlast).
      rewrite Hlen in Hrun, Hbefore, Hlast.
      exists (S k). split; [lia|]. split; [|split].
      * rewrite Hrun, Hl'. apply passes_shift.
      * intros j Hj. destruct j as [|j].
        -- unfold pass_norm. cbn [passes]. now rewrite Epass.
        -- rewrite <- pass_norm_shift, <- Hl'. apply Hbefore. lia.
      * intros Hcap. replace (S k - 1)%nat with (S (k - 1)) by lia.
        rewrite <- pass_norm_shift, <- Hl'. apply Hlast. lia.
Qed.

(** The write-back loop stores the multipliers in the order of the contacts
    and touches nothing else of a constraint. *)
Lemma save_multipliers_value (ms : list (LagrangeMultiplier F)) :
  forall (pre lambda : list F),
    length lambda = length ms ->
    map (@value F) (save_multipliers ms (pre ++ lambda) (length pre)) = lambda.
Proof.
  induction ms as [|c ms IH]; intros pre [|x lambda] Hlen; try discriminate.
  - reflexivity.
  - simpl. rewrite get_middle. f_equal.
    specialize (IH (pre ++ [x]) lambda).
    rewrite <- app_assoc, length_app, Nat.add_1_r in IH. simpl in IH.
    apply IH. simpl in Hlen. lia.
Qed.

Lemma gauss_seidel_length (fuel n : nat) (a rhs lambdaMin lambdaMax : list F) :
  forall lambda : list F,
    n = length lambda ->
    length (gauss_seidel fuel n a rhs lambdaMin lambdaMax lambda) = length lambda.
Proof.
  induction fuel as [|fuel IH]; intros lambda Hn; [reflexivity|].
  rewrite gauss_seidel_step. subst n. rewrite sweep_is_pgs_pass.
  pose proof (pgs_pass_length (length lambda) a rhs lambdaMin lambdaMax lambda) as Hlen.
  destruct (pgs_pass (length lambda) a rhs lambdaMin lambdaMax lambda) as [l' nrm].
  simpl in Hlen. destruct (nrm <? tolerance); [exact Hlen|].
  rewrite (IH l') by (symmetry; exact Hlen). exact Hlen.
Qed.

End GaussSeidel.

(** ** The contact resolver *)

(** Reading a field of an object after some fields were stored. *)
Ltac read_fields :=
  cbn [fst snd set_vPQRdot set_vPQRidot set_vUVWdot set_vUVWidot set_vGravAccel
       set_vBodyAccel set_vQtrndot vPQRdot vPQRidot vUVWdot vUVWidot vGravAccel
       vBodyAccel vQtrndot gravType rate inp record_call set_multipliers
       multipliers calls TerrainVelocity TerrainAngularVelocity].

Section ContactResolver.
Context {F : Type} `{Scalar F}.
Local Open Scope scalar_scope.

Lemma solve_multipliers_eq (dt : F) (fdm : FGFDMExec F) (m : FGAccelerations F) :
  solve_multipliers dt fdm m
  = gauss_seidel 50 (length (multipliers fdm))
                 (fst (contact_system dt fdm m)) (snd (contact_system dt fdm m))
                 (map (@Min F) (multipliers fdm)) (map (@Max F) (multipliers fdm))
                 (map (@value F) (multipliers fdm)).
Proof.
  unfold solve_multipliers, contact_system.
  destruct (prepare _ _ _ _ _ _) as [a rhs]. reflexivity.
Qed.

Lemma solve_multipliers_length (dt : F) (fdm : FGFDMExec F) (m : FGAccelerations F) :
  length (solve_multipliers dt fdm m) = length (multipliers fdm).
Proof.
  rewrite solve_multipliers_eq, gauss_seidel_length; now rewrite length_map.
Qed.

(** What a call with at least one contact leaves behind. *)
Lemma ResolveFrictionForces_contact (dt : F) (fdm : FGFDMExec F) (m : FGAccelerations F) :
  multipliers fdm <> [] ->
  let ms := multipliers fdm in
  let lambda := solve_multipliers dt fdm m in
  let loads := contact_loads (length ms) lambda
                             (map (@ForceJacobian F) ms) (map (@MomentJacobian F) ms) in
  let accel := ((F1 / Mass (inp m)) *s fst loads)%V in
  let omegadot := (Jinv (inp m) *v snd loads)%V in
  ResolveFrictionForces dt fdm m
  = (set_vPQRidot (vPQRidot m + omegadot)%V
       (set_vPQRdot (vPQRdot m + omegadot)%V
          (set_vUVWidot (vUVWidot m + Tb2i (inp m) *v accel)%V
             (set_vUVWdot (vUVWdot m + accel)%V m))),
     record_call UpdateForcesAndMoments
       (set_multipliers (save_multipliers ms lambda 0) fdm)).
Proof.
  intros Hne. unfold ResolveFrictionForces.
  destruct (multipliers fdm) as [|c cs] eqn:Ems; [contradiction|].
  cbn [length]. cbv zeta.
  destruct (contact_loads _ _ _ _) as [Fc Mc]. read_fields. reflexivity.
Qed.

(** The multipliers written back are those the Gauss-Seidel loop ended with. *)
Lemma written_multipliers (dt : F) (fdm : FGFDMExec F) (m : FGAccelerations F) :
  multipliers fdm <> [] ->
  map (@value F) (multipliers (snd (ResolveFrictionForces dt fdm m)))
  = solve_multipliers dt fdm m.
Proof.
  intros Hne. rewrite (ResolveFrictionForces_contact dt fdm m Hne). read_fields.
  pose proof (save_multipliers_value (multipliers fdm) [] (solve_multipliers dt fdm m)
                (solve_multipliers_length dt fdm m)) as Hsaved.
  cbn [app length] in Hsaved. exact Hsaved.
Qed.

(** C3: with at least one contact the multipliers written back are the result
    of [k] projected Gauss-Seidel passes over the assembled system, started
    from the stored multipliers, with 1 <= k <= 50.  Each pass of the source is
    the in-place pass [pgs_pass]: a component is replaced by the clamp to its
    bounds of its value plus the residual of its line, the residual reading the
    components already replaced in the same pass, and [norm] is the sum of the
    absolute changes.  No pass before the last ended with [norm] strictly
    under 1e-5, and when fewer than 50 passes ran the last one did. *)
Theorem resolver_is_projected_gauss_seidel
  (dt : F) (fdm : FGFDMExec F) (m : FGAccelerations F) :
  multipliers fdm <> [] ->
  let ms := multipliers fdm in
  let n := length ms in
  let a := fst (contact_system dt fdm m) in
  let rhs := snd (contact_system dt fdm m) in
  let lambdaMin := map (@Min F) ms in
  let lambdaMax := map (@Max F) ms in
  (forall lambda : list F,
      length lambda = n ->
      sweep n a rhs lambdaMin lambdaMax lambda
      = pgs_pass n a rhs lambdaMin lambdaMax lambda)
  /\ exists k : nat,
      (1 <= k <= 50)%nat
      /\ map (@value F) (multipliers (snd (ResolveFrictionForces dt fdm m)))
         = passes k n a rhs lambdaMin lambdaMax (map (@value F) ms)
      /\ (forall j, (j < k - 1)%nat ->
            (pass_norm j n a rhs lambdaMin lambdaMax (map (@value F) ms) <? tolerance)
            = false)
      /\ ((k < 50)%nat ->
            (pass_norm (k - 1) n a rhs lambdaMin lambdaMax (map (@value F) ms) <? tolerance)
            = true).
Proof.
  intros Hne ms n a rhs lambdaMin lambdaMax. split.
  - intros lambda Hlen. rewrite <- Hlen. apply sweep_is_pgs_pass.
  - rewrite (written_multipliers dt fdm m Hne), solve_multipliers_eq.
    pose proof (gauss_seidel_runs a rhs lambdaMin lambdaMax 49 (map (@value F) ms))
      as Hruns.
    cbv zeta in Hruns. rewrite length_map in Hruns. exact Hruns.
Qed.

(** C5: with no active constraint the resolver returns the object and its
    surroundings as it received them: none of the five derivative fields
    changes, no multiplier is written and no collaborator is called. *)
Theorem empty_contact_set_is_noop (dt : F) (fdm : FGFDMExec F) (m : FGAccelerations F) :
  multipliers fdm = [] ->
  ResolveFrictionForces dt fdm m = (m, fdm)
  /\ vPQRdot (fst (ResolveFrictionForces dt fdm m)) = vPQRdot m
  /\ vPQRidot (fst (ResolveFrictionForces dt fdm m)) = vPQRidot m
  /\ vUVWdot (fst (ResolveFrictionForces dt fdm m)) = vUVWdot m
  /\ vUVWidot (fst (ResolveFrictionForces dt fdm m)) = vUVWidot m
  /\ vQtrndot (fst (ResolveFrictionForces dt fdm m)) = vQtrndot m.
Proof.
  intros Hempty. unfold ResolveFrictionForces. rewrite Hempty. cbn [length fst].
  repeat split; reflexivity.
Qed.

(** C9: for every [dt] and every contact set the resolver leaves the attitude
    derivative, the stored gravity and the stored net body acceleration as they
    were (and the selector, the rate and the inputs).  Either there is no
    contact and the object is unchanged, or the four rate derivatives each
    receive an increment: [accel = invMass * Fc] is added to [vUVWdot] and
    [Tb2i * accel] to [vUVWidot]; the same [omegadot = Jinv * Mc] is added to
    [vPQRdot] and to [vPQRidot]. *)
Theorem resolver_only_adds_to_rates
  (dt : F) (fdm : FGFDMExec F) (m : FGAccelerations F) :
  let m' := fst (ResolveFrictionForces dt fdm m) in
  let ms := multipliers fdm in
  let loads := contact_loads (length ms) (solve_multipliers dt fdm m)
                             (map (@ForceJacobian F) ms) (map (@MomentJacobian F) ms) in
  let accel := ((F1 / Mass (inp m)) *s fst loads)%V in
  let omegadot := (Jinv (inp m) *v snd loads)%V in
  vQtrndot m' = vQtrndot m
  /\ vGravAccel m' = vGravAccel m
  /\ vBodyAccel m' = vBodyAccel m
  /\ gravType m' = gravType m /\ rate m' = rate m /\ inp m' = inp m
  /\ ((ms = [] /\ m' = m)
      \/ ((exists c cs, ms = c :: cs)
          /\ vUVWdot m' = (vUVWdot m + accel)%V
          /\ vUVWidot m' = (vUVWidot m + Tb2i (inp m) *v accel)%V
          /\ vPQRdot m' = (vPQRdot m + omegadot)%V
          /\ vPQRidot m' = (vPQRidot m + omegadot)%V)).
Proof.
  cbv zeta. destruct (multipliers fdm) as [|c cs] eqn:Ems.
  - unfold ResolveFrictionForces. rewrite Ems. cbn [length fst].
    do 6 (split; [reflexivity|]). left. split; reflexivity.
  - assert (Hne : multipliers fdm <> []) by (rewrite Ems; discriminate).
    rewrite (ResolveFrictionForces_contact dt fdm m Hne). read_fields. rewrite Ems.
    do 6 (split; [reflexivity|]). right.
    split; [exists c, cs; reflexivity|]. do 3 (split; [reflexivity|]). reflexivity.
Qed.

End ContactResolver.

(** ** Bounds of the multipliers *)

Section Bounds.
Context {F : Type} `{Scalar F} {HO : OrderLaws F}.
Local Open Scope scalar_scope.

Lemma Fleb_refl (x : F) : (x <=? x) = true.
Proof. destruct (Fleb_total x x); assumption. Qed.

Lemma Fltb_irrefl (x : F) : (x <? x) = false.
Proof. now rewrite Fltb_Fleb, Fleb_refl. Qed.

(** Between ordered bounds, [Constrain] lands between the bounds. *)
Lemma Constrain_within (lo v hi : F) :
  (lo <=? hi) = true ->
  (lo <=? Constrain lo v hi) = true /\ (Constrain lo v hi <=? hi) = true.
Proof.
  intros Hbounds. unfold Constrain, Fgtb.
  destruct (v <? lo) eqn:Elo.
  - split; [apply Fleb_refl | exact Hbounds].
  - destruct (hi <? v) eqn:Ehi.
    + split; [exact Hbounds | apply Fleb_refl].
    + rewrite Fltb_Fleb in Elo, Ehi.
      apply negb_false_iff in Elo. apply negb_false_iff in Ehi. now split.
Qed.

(** Every component that a pass has visited lies between its bounds. *)
Lemma pgs_pass_from_within (n : nat) (a rhs lambdaMin lambdaMax : list F) :
  forall (todo done : list F) (norm : F),
    (forall i, (i < length done + length todo)%nat ->
               (get lambdaMin i <=? get lambdaMax i) = true) ->
    (forall i, (i < length done)%nat ->
               (get lambdaMin i <=? get done i) = true
               /\ (get done i <=? get lambdaMax i) = true) ->
    forall i, (i < length done + length todo)%nat ->
      let r := fst (pgs_pass_from n a rhs lambdaMin lambdaMax done todo norm) in
      (get lambdaMin i <=? get r i) = true /\ (get r i <=? get lambdaMax i) = true.
Proof.
  induction todo as [|x rest IH]; intros done norm Hbounds Hdone i Hi.
  - simpl in *. apply Hdone. lia.
  - cbn [pgs_pass_from]. simpl in Hbounds, Hi.
    apply IH.
    + intros j Hj. apply Hbounds. rewrite length_app in Hj. simpl in Hj. lia.
    + intros j Hj. rewrite length_app in Hj. simpl in Hj.
      destruct (Nat.eq_dec j (length done)) as [->|Hneq].
      * rewrite get_middle. apply Constrain_within. apply Hbounds. lia.
      * rewrite get_app_l by lia. apply Hdone. lia.
    + rewrite length_app. simpl. lia.
Qed.

Lemma passes_within (k n : nat) (a rhs lambdaMin lambdaMax lambda : list F) :
  (forall i, (i < length lambda)%nat -> (get lambdaMin i <=? get lambdaMax i) = true) ->
  forall i, (i < length lambda)%nat ->
    let r := passes (S k) n a rhs lambdaMin lambdaMax lambda in
    (get lambdaMin i <=? get r i) = true /\ (get r i <=? get lambdaMax i) = true.
Proof.
  intros Hbounds i Hi. cbn [passes]. unfold pgs_pass.
  apply pgs_pass_from_within; cbn [length Nat.add]; rewrite ?passes_length;
    try assumption.
  intros j Hj. lia.
Qed.

Lemma bounds_by_index (ms : list (LagrangeMultiplier F)) :
  Forall (fun c => (Min c <=? Max c) = true) ms ->
  forall i, (i < length ms)%nat ->
    (get (map (@Min F) ms) i <=? get (map (@Max F) ms) i) = true.
Proof.
  induction 1 as [|c ms Hc _ IH]; intros [|i] Hi; simpl in Hi; try lia.
  - exact Hc.
  - apply IH. lia.
Qed.

Lemma save_multipliers_within (ms : list (LagrangeMultiplier F)) :
  forall (pre lambda : list F),
    length lambda = length ms ->
    (forall i, (i < length ms)%nat ->
       (get (map (@Min F) ms) i <=? get lambda i) = true
       /\ (get lambda i <=? get (map (@Max F) ms) i) = true) ->
    Forall within_bounds (save_multipliers ms (pre ++ lambda) (length pre)).
Proof.
  induction ms as [|c ms IH]; intros pre [|x lambda] Hlen Hin; try discriminate.
  - constructor.
  - cbn [save_multipliers]. rewrite get_middle. constructor.
    + exact (Hin 0%nat (Nat.lt_0_succ _)).
    + specialize (IH (pre ++ [x]) lambda).
      rewrite <- app_assoc, length_app, Nat.add_1_r in IH. simpl in IH.
      apply IH; [simpl in Hlen; lia|].
      intros i Hi. apply (Hin (S i)). simpl. lia.
Qed.

Lemma save_multipliers_keeps_bounds (ms : list (LagrangeMultiplier F)) :
  forall (lambda : list F) (i : nat),
    map (@Min F) (save_multipliers ms lambda i) = map (@Min F) ms
    /\ map (@Max F) (save_multipliers ms lambda i) = map (@Max F) ms.
Proof.
  induction ms as [|c ms IH]; intros lambda i; simpl; [auto|].
  destruct (IH lambda (S i)) as [-> ->]. auto.
Qed.

(** In a totally ordered arithmetic: with at least one contact, and the lower
    bound of every constraint not above its upper bound, every multiplier
    written back lies between the bounds of its constraint, whatever value
    was stored there before; the bounds themselves are not written. *)
Theorem written_multipliers_within_bounds
  (dt : F) (fdm : FGFDMExec F) (m : FGAccelerations F) :
  multipliers fdm <> [] ->
  Forall (fun c => (Min c <=? Max c) = true) (multipliers fdm) ->
  let written := multipliers (snd (ResolveFrictionForces dt fdm m)) in
  Forall within_bounds written
  /\ map (@Min F) written = map (@Min F) (multipliers fdm)
  /\ map (@Max F) written = map (@Max F) (multipliers fdm).
Proof.
  intros Hne Hordered. cbv zeta.
  rewrite (ResolveFrictionForces_contact dt fdm m Hne).
  cbn [snd record_call set_multipliers multipliers].
  split; [|apply save_multipliers_keeps_bounds].
  pose proof (save_multipliers_within (multipliers fdm) [] (solve_multipliers dt fdm m)
                (solve_multipliers_length dt fdm m)) as Hsaved.
  cbn [app length] in Hsaved. apply Hsaved. clear Hsaved.
  intros i Hi. rewrite solve_multipliers_eq.
  destruct (gauss_seidel_runs (fst (contact_system dt fdm m))
              (snd (contact_system dt fdm m))
              (map (@Min F) (multipliers fdm)) (map (@Max F) (multipliers fdm))
              49 (map (@value F) (multipliers fdm))) as (k & Hk & Hrun & _).
  rewrite length_map in Hrun. rewrite Hrun.
  destruct k as [|k]; [lia|].
  apply (passes_within k (length (multipliers fdm))
           (fst (contact_system dt fdm m)) (snd (contact_system dt fdm m))
           (map (@Min F) (multipliers fdm)) (map (@Max F) (multipliers fdm))
           (map (@value F) (multipliers fdm)));
    rewrite length_map; [|exact Hi].
  apply bounds_by_index. exact Hordered.
Qed.

End Bounds.

(** ** A single contact at [dt = 0] *)

Section SingleContact.
Context {F : Type} `{Scalar F} {HF : FieldLaws F} {HO : OrderLaws F}.
Local Open Scope scalar_scope.

Add Field scalar_field : (@F_field F _ HF).

Lemma Fdiv_as_mul (x y : F) : x / y = x * (F1 / y).
Proof. exact (Fdiv_def F_field x y). Qed.

Lemma Finv_r (x : F) : x <> F0 -> x * (F1 / x) = F1.
Proof.
  intros Hx. pose proof (Finv_l F_field x Hx) as Hinv. cbv beta in Hinv.
  transitivity ((F1 / x) * x); [ring | exact Hinv].
Qed.

Lemma one_contact_system (fdm : FGFDMExec F) (m : FGAccelerations F)
  (c : LagrangeMultiplier F) :
  multipliers fdm = [c] ->
  let A := DotProduct (ForceJacobian c) ((F1 / Mass (inp m)) *s ForceJacobian c)%V
           + DotProduct (MomentJacobian c) (Jinv (inp m) *v MomentJacobian c)%V in
  contact_system F0 fdm m
  = ([A * (F1 / A)],
     [- (DotProduct (ForceJacobian c) (vUVWdot m)
         + DotProduct (MomentJacobian c) (vPQRdot m)) * (F1 / A)]).
Proof.
  intros Hms A. unfold contact_system, target_vdot, target_wdot, Fgtb.
  rewrite Hms, Fltb_irrefl.
  cbv [prepare assemble for_range fold_left seq upd get getv nth length map
       Nat.sub Nat.mul Nat.add repeat].
  reflexivity.
Qed.

(** With the diagonal scaled to one, a pass over a single component stores the
    clamp of the right hand side, whatever the component held. *)
Lemma one_contact_pass (a11 r lo hi mu : F) :
  a11 = F1 ->
  fst (pgs_pass 1 [a11] [r] [lo] [hi] [mu]) = [Constrain lo r hi].
Proof.
  intros ->.
  cbv [pgs_pass pgs_pass_from residual fold_left seq get nth length app fst
       Nat.mul Nat.add].
  replace (mu + (r - F1 * mu)) with r by ring. reflexivity.
Qed.

Lemma one_contact_solution (fdm : FGFDMExec F) (m : FGAccelerations F)
  (c : LagrangeMultiplier F) :
  multipliers fdm = [c] ->
  let A := DotProduct (ForceJacobian c) ((F1 / Mass (inp m)) *s ForceJacobian c)%V
           + DotProduct (MomentJacobian c) (Jinv (inp m) *v MomentJacobian c)%V in
  A <> F0 ->
  solve_multipliers F0 fdm m
  = [Constrain (Min c)
               (- (DotProduct (ForceJacobian c) (vUVWdot m)
                   + DotProduct (MomentJacobian c) (vPQRdot m)) * (F1 / A))
               (Max c)].
Proof.
  intros Hms A HA.
  rewrite solve_multipliers_eq, (one_contact_system fdm m Hms), Hms.
  fold A. cbn [fst snd map length].
  destruct (gauss_seidel_runs [A * (F1 / A)]
              [- (DotProduct (ForceJacobian c) (vUVWdot m)
                  + DotProduct (MomentJacobian c) (vPQRdot m)) * (F1 / A)]
              [Min c] [Max c] 49 [value c]) as (k & Hk & Hrun & _).
  cbn [length] in Hrun. rewrite Hrun.
  destruct k as [|k]; [lia|]. cbn [passes].
  pose proof (passes_length k 1 [A * (F1 / A)]
                [- (DotProduct (ForceJacobian c) (vUVWdot m)
                    + DotProduct (MomentJacobian c) (vPQRdot m)) * (F1 / A)]
                [Min c] [Max c] [value c]) as Hlen.
  destruct (passes k 1 _ _ _ _ _) as [|mu [|? ?]]; try discriminate.
  apply one_contact_pass. now apply Finv_r.
Qed.

(** The two ways of writing the effective mass of a contact agree. *)
Lemma effective_mass_forms (JF JM : FGColumnVector3 F) (Ji : FGMatrix33 F) (M : F) :
  DotProduct JF (JF /s M)%V + DotProduct JM (Ji *v JM)%V
  = DotProduct JF ((F1 / M) *s JF)%V + DotProduct JM (Ji *v JM)%V.
Proof.
  destruct JF as [fx fy fz]. cbv [DotProduct vdiv smul vx vy vz].
  rewrite (Fdiv_as_mul fx M), (Fdiv_as_mul fy M), (Fdiv_as_mul fz M). ring.
Qed.

(** The relative acceleration along the constraint after a contact load of
    multiplier [lam] has been added to the derivatives. *)
Lemma constraint_acceleration (JF JM v w : FGColumnVector3 F) (Ji : FGMatrix33 F)
  (iM lam : F) :
  DotProduct JF (v + iM *s (InitMatrix + lam *s JF))%V
  + DotProduct JM (w + Ji *v (InitMatrix + lam *s JM))%V
  = (DotProduct JF v + DotProduct JM w)
    + lam * (DotProduct JF (iM *s JF)%V + DotProduct JM (Ji *v JM)%V).
Proof.
  destruct JF, JM, v, w, Ji as [[? ? ?] [? ? ?] [? ? ?]].
  cbv [DotProduct vadd smul mvmul InitMatrix vx vy vz row1 row2 row3]. ring.
Qed.

(** C4, as amended: with a single contact and [dt = 0], in exact arithmetic
    (the laws of a field and of a total order) and with a non-zero effective
    mass A = JacF.(JacF/Mass) + JacM.(Jinv*JacM), the targets
    of the right hand side are the current derivatives alone (no velocity
    correction), and the multiplier written back is
    Constrain(Min, -(JacF.vUVWdot + JacM.vPQRdot)/A, Max).  When that value is
    not clamped, the derivatives left by the resolver have no relative
    acceleration along the constraint: JacF.vUVWdot' + JacM.vPQRdot' = 0. *)
Theorem single_contact_at_dt_zero
  (fdm : FGFDMExec F) (m : FGAccelerations F) (c : LagrangeMultiplier F) :
  multipliers fdm = [c] ->
  let JacF := ForceJacobian c in
  let JacM := MomentJacobian c in
  let A := DotProduct JacF (JacF /s Mass (inp m))%V
           + DotProduct JacM (Jinv (inp m) *v JacM)%V in
  let unclamped := - (DotProduct JacF (vUVWdot m) + DotProduct JacM (vPQRdot m)) / A in
  let m' := fst (ResolveFrictionForces F0 fdm m) in
  A <> F0 ->
  target_vdot F0 fdm m = vUVWdot m
  /\ target_wdot F0 fdm m = vPQRdot m
  /\ map (@value F) (multipliers (snd (ResolveFrictionForces F0 fdm m)))
     = [Constrain (Min c) unclamped (Max c)]
  /\ (Constrain (Min c) unclamped (Max c) = unclamped ->
      DotProduct JacF (vUVWdot m') + DotProduct JacM (vPQRdot m') = F0).
Proof.
  intros Hms JacF JacM A unclamped m' HA.
  assert (Hne : multipliers fdm <> []) by (rewrite Hms; discriminate).
  unfold A in HA. rewrite effective_mass_forms in HA.
  assert (Hun : unclamped
                = - (DotProduct JacF (vUVWdot m) + DotProduct JacM (vPQRdot m))
                  * (F1 / (DotProduct JacF ((F1 / Mass (inp m)) *s JacF)%V
                           + DotProduct JacM (Jinv (inp m) *v JacM)%V))).
  { unfold unclamped, A. rewrite effective_mass_forms. apply Fdiv_as_mul. }
  pose proof (one_contact_solution fdm m Hms HA) as Hsol. fold JacF JacM in Hsol.
  rewrite <- Hun in Hsol.
  split; [|split; [|split]].
  - unfold target_vdot, Fgtb. now rewrite Fltb_irrefl.
  - unfold target_wdot, Fgtb. now rewrite Fltb_irrefl.
  - rewrite (written_multipliers F0 fdm m Hne). exact Hsol.
  - intros Hfree. unfold m'.
    rewrite (ResolveFrictionForces_contact F0 fdm m Hne). read_fields.
    rewrite Hsol, Hfree, Hms.
    cbv [contact_loads for_range fold_left seq length map get getv nth fst snd
         Nat.sub].
    fold JacF JacM. rewrite constraint_acceleration, Hun.
    set (x := DotProduct JacF (vUVWdot m) + DotProduct JacM (vPQRdot m)) in *.
    set (A' := DotProduct JacF ((F1 / Mass (inp m)) *s JacF)%V
               + DotProduct JacM (Jinv (inp m) *v JacM)%V) in *.
    transitivity (x - x * (A' * (F1 / A'))); [ring|].
    rewrite (Finv_r HA). ring.
Qed.

End SingleContact.

(** ** The orchestrator *)

Section Orchestrator.
Context {F : Type} `{Scalar F}.

(** C7, as amended: with the holding flag set, [Run] makes none of the calls
    (kinematics, attitude, contact resolver, pre and post hooks) and changes
    no field of the object or of its surroundings; it returns what the base
    class returned, [true] on a fast return and [false] otherwise; [false] is
    also what a call that carries out the whole computation returns. *)
Theorem Run_holding (base : bool) (fdm : FGFDMExec F) (m : FGAccelerations F) :
  snd (Run base true fdm m) = (m, fdm)
  /\ fst (Run base true fdm m) = base
  /\ fst (Run false false fdm m) = false.
Proof.
  split; [|split].
  - destruct base; reflexivity.
  - destruct base; reflexivity.
  - unfold Run. destruct (ResolveFrictionForces _ _ _) as [m' fdm']. reflexivity.
Qed.

(** A call that is neither held nor cut short by the base class runs the hooks
    around the computation: the first call it records is the pre hook, the
    last one the post hook. *)
Lemma Run_records_hooks (fdm : FGFDMExec F) (m : FGAccelerations F) :
  exists between : list Event,
    calls (snd (snd (Run false false fdm m)))
    = calls fdm ++ RunPreFunctions :: between ++ [RunPostFunctions].
Proof.
  unfold Run, ResolveFrictionForces.
  cbn [multipliers record_call].
  destruct (length (multipliers fdm)) as [|n].
  - exists []. cbn [snd fst record_call calls]. now rewrite <- app_assoc.
  - destruct (contact_loads _ _ _ _) as [Fc Mc].
    exists [UpdateForcesAndMoments].
    cbn [snd fst record_call set_multipliers calls]. now rewrite <- !app_assoc.
Qed.

End Orchestrator.

(** ** The properties at work on the scenario

    The statements above applied to the vehicle at rest, on binary64 where
    they hold for every arithmetic and on the rationals where they need the
    laws of exact arithmetic. *)

(** One-shot initialisation of the vehicle at rest on one contact, run on
    binary64: the contact load cancels gravity and the ground reactions are
    told once to recompute their loads. *)
Example vehicle_at_rest_binary64 :
  vUVWdot (fst (InitializeDerivatives (ground [wheel F0 (of_Z 1000000) F0])
                                      (rest_model gtWGS84 : FGAccelerations float)))
  = InitMatrix
  /\ calls (snd (InitializeDerivatives (ground [wheel F0 (of_Z 1000000) F0])
                                       (rest_model gtWGS84 : FGAccelerations float)))
     = [UpdateForcesAndMoments].
Proof. split; vm_compute; reflexivity. Qed.

(** C3 on the scenario: one contact, so the hypothesis holds. *)
Lemma resolver_is_projected_gauss_seidel_run :
  exists k : nat,
    (1 <= k <= 50)%nat
    /\ map (@value float)
         (multipliers (snd (ResolveFrictionForces F0 (ground [wheel F0 (of_Z 1000000) F0])
                                                  (falling_model gtWGS84))))
       = passes k 1
           (fst (contact_system F0 (ground [wheel F0 (of_Z 1000000) F0])
                                (falling_model gtWGS84)))
           (snd (contact_system F0 (ground [wheel F0 (of_Z 1000000) F0])
                                (falling_model gtWGS84)))
           [F0] [of_Z 1000000] [F0].
Proof.
  destruct (@resolver_is_projected_gauss_seidel float _ F0
              (ground [wheel F0 (of_Z 1000000) F0]) (falling_model gtWGS84))
    as [_ (k & Hk & Hwritten & _)].
  - discriminate.
  - exists k. split; [exact Hk | exact Hwritten].
Defined.

(** C4 on the scenario, over the rationals: the multiplier is mass times
    gravity, 3 * 32.2 = 96.6, and it cancels the acceleration along the
    constraint. *)
Lemma single_contact_at_dt_zero_run :
  map (@value Qc)
      (multipliers (snd (ResolveFrictionForces F0 (ground [wheel F0 (of_Z 1000000) F0])
                                               (falling_model gtWGS84))))
  = [Fdiv (of_Z 966) (of_Z 10)]
  /\ Fadd (DotProduct (ForceJacobian (wheel F0 (of_Z 1000000) F0))
             (vUVWdot (fst (ResolveFrictionForces F0 (ground [wheel F0 (of_Z 1000000) F0])
                                                  (falling_model gtWGS84)))))
          (DotProduct (MomentJacobian (wheel F0 (of_Z 1000000) F0))
             (vPQRdot (fst (ResolveFrictionForces F0 (ground [wheel F0 (of_Z 1000000) F0])
                                                  (falling_model gtWGS84)))))
     = (F0 : Qc).
Proof.
  assert (Hmass :
            Fadd (DotProduct (ForceJacobian (wheel F0 (of_Z 1000000) F0))
                    (vdiv (ForceJacobian (wheel F0 (of_Z 1000000) F0))
                          (Mass (inp (falling_model gtWGS84)))))
                 (DotProduct (MomentJacobian (wheel F0 (of_Z 1000000) F0))
                    (mvmul (Jinv (inp (falling_model gtWGS84)))
                           (MomentJacobian (wheel F0 (of_Z 1000000) F0))))
            <> (F0 : Qc)).
  { intro E. apply (f_equal this) in E. vm_compute in E. discriminate. }
  destruct (@single_contact_at_dt_zero Qc _ _ _
              (ground [wheel F0 (of_Z 1000000) F0]) (falling_model gtWGS84)
              (wheel F0 (of_Z 1000000) F0) eq_refl Hmass)
    as (_ & _ & Hwritten & Hcancel).
  split.
  - rewrite Hwritten. f_equal. apply Qc_is_canon. vm_compute. reflexivity.
  - apply Hcancel. apply Qc_is_canon. vm_compute. reflexivity.
Defined.

(** C5 on the scenario with no contact. *)
Lemma empty_contact_set_is_noop_run :
  ResolveFrictionForces (Fdiv F1 (of_Z 120)) (ground []) (falling_model gtWGS84)
  = (falling_model gtWGS84 : FGAccelerations float, ground []).
Proof.
  exact (proj1 (@empty_contact_set_is_noop float _ (Fdiv F1 (of_Z 120)) (ground [])
                  (falling_model gtWGS84) eq_refl)).
Defined.

(** C6 on the scenario, once for each recognised value of the selector. *)
Lemma gravity_follows_selector_run :
  vGravAccel (CalculateUVWdot (rest_model gtStandard : FGAccelerations float))
  = mvmul identity33 (Vec3 F0 F0 (Fdiv (of_Z 322) (of_Z 10)))
  /\ vGravAccel (CalculateUVWdot (rest_model gtWGS84 : FGAccelerations float))
     = mvmul identity33 (Vec3 F0 F0 (Fdiv (of_Z 322) (of_Z 10))).
Proof.
  split.
  - exact (proj1 (proj1 (@gravity_follows_selector float _ (rest_model gtStandard))
                        eq_refl)).
  - exact (proj1 (proj2 (@gravity_follows_selector float _ (rest_model gtWGS84))
                        eq_refl)).
Defined.

(** C10 with the selector set to 2: the gravity left by an earlier
    evaluation, zero or not, stays. *)
Lemma unrecognised_selector_reuses_gravity_run :
  vGravAccel (CalculateUVWdot (falling_model 2 : FGAccelerations float)) = InitMatrix
  /\ vGravAccel
       (CalculateUVWdot
          (set_vGravAccel (Vec3 F0 F0 (of_Z 7)) (rest_model 2 : FGAccelerations float)))
     = Vec3 F0 F0 (of_Z 7).
Proof.
  assert (Hs : 2%Z <> gtStandard) by discriminate.
  assert (Hw : 2%Z <> gtWGS84) by discriminate.
  split.
  - exact (proj1 (@unrecognised_selector_reuses_gravity float _ (falling_model 2) Hs Hw)).
  - exact (proj1 (@unrecognised_selector_reuses_gravity float _
                    (set_vGravAccel (Vec3 F0 F0 (of_Z 7)) (rest_model 2)) Hs Hw)).
Defined.

(** The bounds over the rationals: bounds 0 and 50, and a stored multiplier
    of 200 outside them. *)
Lemma written_multipliers_within_bounds_run :
  Forall (@within_bounds Qc _)
         (multipliers (snd (ResolveFrictionForces F0
                              (ground [wheel F0 (of_Z 50) (of_Z 200)])
                              (falling_model gtWGS84)))).
Proof.
  refine (proj1 (@written_multipliers_within_bounds Qc _ _ F0
                   (ground [wheel F0 (of_Z 50) (of_Z 200)]) (falling_model gtWGS84)
                   _ _)).
  - discriminate.
  - repeat constructor.
Defined.

(** When a lower bound lies above its upper bound the value written back is
    outside the bounds: with Min = 1 and Max = 0 it is 0, under Min. *)
Lemma crossed_bounds_are_not_respected :
  multipliers (ground [wheel (F1 : float) F0 F0]) <> []
  /\ map (@value float)
         (multipliers (snd (ResolveFrictionForces F0 (ground [wheel F1 F0 F0])
                                                  (falling_model gtWGS84))))
     = [F0]
  /\ ~ Forall (@within_bounds float _)
        (multipliers (snd (ResolveFrictionForces F0 (ground [wheel F1 F0 F0])
                                                 (falling_model gtWGS84)))).
Proof.
  split; [discriminate|]. split; [vm_compute; reflexivity|].
  intro Hall. inversion Hall as [|c cs [Hlow _] _ Ecs]; subst.
  vm_compute in Hlow. discriminate.
Qed.

(** C7 as stated fails on the result: a held call returns [false], and so does
    a call that runs the hooks and the whole computation. *)
Lemma held_result_is_also_the_result_after_work :
  ~ @reports_no_work float _
      (fst (Run false true (ground []) (rest_model gtWGS84 : FGAccelerations float))).
Proof.
  intro Hreports.
  specialize (Hreports false false (ground []) (rest_model gtWGS84) eq_refl).
  apply (f_equal (fun s => calls (snd s))) in Hreports.
  vm_compute in Hreports. discriminate.
Qed.

(** * Further properties of the code *)

(** ** The kinematics as a whole *)

Section KinematicsComposition.
Context {F : Type} `{Scalar F}.
Local Open Scope vec_scope.

Lemma kinematics_keeps (m : FGAccelerations F) :
  gravType (kinematics m) = gravType m
  /\ rate (kinematics m) = rate m
  /\ inp (kinematics m) = inp m.
Proof.
  unfold kinematics, CalculateQuatdot, CalculateUVWdot, CalculatePQRdot.
  cbn [gravType rate inp set_vPQRdot set_vPQRidot set_vUVWdot set_vBodyAccel].
  destruct (Z.eqb (gravType m) gtStandard), (Z.eqb (gravType m) gtWGS84);
    repeat split; reflexivity.
Qed.

Lemma kinematics_from_inputs (m1 m2 : FGAccelerations F) :
  (gravType m1 = gtStandard \/ gravType m1 = gtWGS84)
  \/ vGravAccel m1 = vGravAccel m2 ->
  gravType m1 = gravType m2 ->
  rate m1 = rate m2 ->
  inp m1 = inp m2 ->
  kinematics m1 = kinematics m2.
Proof.
  intros Hrec Hg Hr Hi.
  destruct m1 as [g1 ? ? ? ? ga1 ? ? ? ?], m2 as [g2 ? ? ? ? ga2 ? ? ? ?].
  cbn [gravType rate inp vGravAccel] in Hrec, Hg, Hr, Hi. subst.
  unfold kinematics, CalculateQuatdot, CalculateUVWdot, CalculatePQRdot.
  destruct Hrec as [[-> | ->] | ->]; [reflexivity | reflexivity |].
  cbn [gravType rate inp set_vPQRdot set_vPQRidot set_vUVWdot set_vBodyAccel].
  destruct (Z.eqb g2 gtStandard), (Z.eqb g2 gtWGS84); reflexivity.
Qed.

(** X1: The kinematics overwrite every derivative field from the inputs, the
    stored gravity excepted when the selector is not recognised: two objects
    with the same selector, rate and inputs (and the same stored gravity, if
    the selector is not recognised) come out equal, whatever their other
    derivative fields held, and so do the results of [InitializeDerivatives]
    and of a tick of [Run]. *)
Theorem derivatives_depend_on_inputs_only
  (m1 m2 : FGAccelerations F) (fdm : FGFDMExec F) :
  (gravType m1 = gtStandard \/ gravType m1 = gtWGS84)
  \/ vGravAccel m1 = vGravAccel m2 ->
  gravType m1 = gravType m2 ->
  rate m1 = rate m2 ->
  inp m1 = inp m2 ->
  kinematics m1 = kinematics m2
  /\ InitializeDerivatives fdm m1 = InitializeDerivatives fdm m2
  /\ Run false false fdm m1 = Run false false fdm m2.
Proof.
  intros Hrec Hg Hr Hi.
  pose proof (kinematics_from_inputs m1 m2 Hrec Hg Hr Hi) as Hk.
  split; [exact Hk|]. split.
  - unfold InitializeDerivatives. fold (kinematics m1). fold (kinematics m2).
    now rewrite Hk.
  - unfold Run. fold (kinematics m1). fold (kinematics m2). now rewrite Hk.
Qed.

(** X2: The three computations write disjoint fields and read none that another
    writes: in any order they leave the same object. *)
Theorem kinematics_commute (m : FGAccelerations F) :
  CalculateUVWdot (CalculatePQRdot m) = CalculatePQRdot (CalculateUVWdot m)
  /\ CalculateQuatdot (CalculatePQRdot m) = CalculatePQRdot (CalculateQuatdot m)
  /\ CalculateQuatdot (CalculateUVWdot m) = CalculateUVWdot (CalculateQuatdot m).
Proof.
  destruct m as [g ? ? ? ? ? ? ? ? ?].
  unfold CalculateQuatdot, CalculateUVWdot, CalculatePQRdot.
  cbn [gravType rate inp set_vPQRdot set_vPQRidot set_vUVWdot set_vUVWidot
       set_vBodyAccel set_vGravAccel set_vQtrndot vPQRdot vPQRidot vUVWdot
       vUVWidot vGravAccel vBodyAccel vQtrndot].
  destruct (Z.eqb g gtStandard), (Z.eqb g gtWGS84); repeat split; reflexivity.
Qed.

End KinematicsComposition.

(** ** The resolver and its surroundings *)

Section ResolverSurroundings.
Context {F : Type} `{Scalar F}.
Local Open Scope scalar_scope.

Lemma resolver_without_correction
  (dt dt' : F) (fdm : FGFDMExec F) (m : FGAccelerations F) :
  Fgtb dt F0 = false ->
  Fgtb dt' F0 = false ->
  ResolveFrictionForces dt fdm m = ResolveFrictionForces dt' fdm m.
Proof.
  intros Hdt Hdt'.
  unfold ResolveFrictionForces, solve_multipliers, target_vdot, target_wdot.
  rewrite Hdt, Hdt'. reflexivity.
Qed.


Lemma resolver_calls (dt : F) (fdm : FGFDMExec F) (m : FGAccelerations F) :
  calls (snd (ResolveFrictionForces dt fdm m))
  = calls fdm ++ match multipliers fdm with
                 | [] => []
                 | _ :: _ => [UpdateForcesAndMoments]
                 end.
Proof.
  destruct (multipliers fdm) as [|c cs] eqn:Ems.
  - unfold ResolveFrictionForces. rewrite Ems. cbn [length snd].
    now rewrite app_nil_r.
  - assert (Hne : multipliers fdm <> []) by (rewrite Ems; discriminate).
    rewrite (ResolveFrictionForces_contact dt fdm m Hne). read_fields. reflexivity.
Qed.

Lemma save_multipliers_keeps_jacobians (ms : list (LagrangeMultiplier F)) :
  forall (lambda : list F) (i : nat),
    map (@ForceJacobian F) (save_multipliers ms lambda i) = map (@ForceJacobian F) ms
    /\ map (@MomentJacobian F) (save_multipliers ms lambda i)
       = map (@MomentJacobian F) ms
    /\ map (@Min F) (save_multipliers ms lambda i) = map (@Min F) ms
    /\ map (@Max F) (save_multipliers ms lambda i) = map (@Max F) ms
    /\ length (save_multipliers ms lambda i) = length ms.
Proof.
  induction ms as [|c ms IH]; intros lambda i; simpl; [repeat split|].
  destruct (IH lambda (S i)) as (-> & -> & -> & -> & ->). repeat split.
Qed.

(** X10: Of the surroundings the resolver writes the multiplier values and nothing
    else: the constraints keep their number, their order, their Jacobians and
    their bounds, the terrain velocities stay, and the ground reactions are
    told to recompute their loads exactly once when there is a contact and
    not at all when there is none. *)
Theorem resolver_writes_values_only
  (dt : F) (fdm : FGFDMExec F) (m : FGAccelerations F) :
  let fdm' := snd (ResolveFrictionForces dt fdm m) in
  map (@ForceJacobian F) (multipliers fdm') = map (@ForceJacobian F) (multipliers fdm)
  /\ map (@MomentJacobian F) (multipliers fdm')
     = map (@MomentJacobian F) (multipliers fdm)
  /\ map (@Min F) (multipliers fdm') = map (@Min F) (multipliers fdm)
  /\ map (@Max F) (multipliers fdm') = map (@Max F) (multipliers fdm)
  /\ length (multipliers fdm') = length (multipliers fdm)
  /\ TerrainVelocity fdm' = TerrainVelocity fdm
  /\ TerrainAngularVelocity fdm' = TerrainAngularVelocity fdm
  /\ calls fdm'
     = calls fdm ++ match multipliers fdm with
                    | [] => []
                    | _ :: _ => [UpdateForcesAndMoments]
                    end.
Proof.
  cbv zeta. destruct (multipliers fdm) as [|c cs] eqn:Ems.
  - unfold ResolveFrictionForces. rewrite Ems. cbn [length snd]. rewrite Ems.
    rewrite app_nil_r. repeat split; reflexivity.
  - assert (Hne : multipliers fdm <> []) by (rewrite Ems; discriminate).
    rewrite (ResolveFrictionForces_contact dt fdm m Hne). read_fields. rewrite Ems.
    destruct (save_multipliers_keeps_jacobians (c :: cs) (solve_multipliers dt fdm m) 0)
      as (HF & HM & Hlo & Hhi & Hlen).
    repeat split; assumption || reflexivity.
Qed.

(** X11: The loads added to the derivatives are those of the multipliers written
    back: with at least one contact, the increments of the four rate
    derivatives are the accelerations that the written values produce through
    the Jacobians. *)
Theorem added_loads_match_written_multipliers
  (dt : F) (fdm : FGFDMExec F) (m : FGAccelerations F) :
  multipliers fdm <> [] ->
  let m' := fst (ResolveFrictionForces dt fdm m) in
  let fdm' := snd (ResolveFrictionForces dt fdm m) in
  let loads := contact_loads (length (multipliers fdm'))
                             (map (@value F) (multipliers fdm'))
                             (map (@ForceJacobian F) (multipliers fdm'))
                             (map (@MomentJacobian F) (multipliers fdm')) in
  let accel := ((F1 / Mass (inp m)) *s fst loads)%V in
  let omegadot := (Jinv (inp m) *v snd loads)%V in
  vUVWdot m' = (vUVWdot m + accel)%V
  /\ vUVWidot m' = (vUVWidot m + Tb2i (inp m) *v accel)%V
  /\ vPQRdot m' = (vPQRdot m + omegadot)%V
  /\ vPQRidot m' = (vPQRidot m + omegadot)%V.
Proof.
  intros Hne. cbv zeta.
  rewrite (written_multipliers dt fdm m Hne).
  rewrite (ResolveFrictionForces_contact dt fdm m Hne). read_fields.
  destruct (save_multipliers_keeps_jacobians (multipliers fdm)
              (solve_multipliers dt fdm m) 0) as (-> & -> & _ & _ & ->).
  repeat split; reflexivity.
Qed.

(** The record of calls plays no part in the computation. *)
Lemma resolver_blind_to_calls (dt : F) (e : Event) (fdm : FGFDMExec F)
  (m : FGAccelerations F) :
  fst (ResolveFrictionForces dt (record_call e fdm) m)
  = fst (ResolveFrictionForces dt fdm m)
  /\ multipliers (snd (ResolveFrictionForces dt (record_call e fdm) m))
     = multipliers (snd (ResolveFrictionForces dt fdm m)).
Proof.
  unfold ResolveFrictionForces, solve_multipliers, target_vdot, target_wdot.
  cbn [record_call multipliers TerrainVelocity TerrainAngularVelocity].
  destruct (length (multipliers fdm)); [split; reflexivity|].
  destruct (prepare _ _ _ _ _ _) as [a rhs].
  destruct (contact_loads _ _ _ _) as [Fc Mc].
  split; reflexivity.
Qed.

(** X6: [Run] returns what the base class returned, whatever the holding flag and
    the state, and changes something only on a call that is neither cut short
    by the base class nor held. *)
Theorem Run_result_and_effect
  (base Holding : bool) (fdm : FGFDMExec F) (m : FGAccelerations F) :
  fst (Run base Holding fdm m) = base
  /\ (snd (Run base Holding fdm m) <> (m, fdm) -> base = false /\ Holding = false).
Proof.
  unfold Run. destruct base, Holding; cbn [fst snd]; split;
    try reflexivity; try (intros Hchanged; now contradiction Hchanged);
    try (intros _; split; reflexivity).
  destruct (ResolveFrictionForces _ _ _) as [m' fdm']. reflexivity.
Qed.

(** X7: A call of [Run] that does the work records the pre hook first and the
    post hook last, and between them one request to the ground reactions when
    there is a contact and none when there is not. *)
Theorem Run_call_sequence (fdm : FGFDMExec F) (m : FGAccelerations F) :
  calls (snd (snd (Run false false fdm m)))
  = calls fdm
    ++ [RunPreFunctions]
    ++ match multipliers fdm with
       | [] => []
       | _ :: _ => [UpdateForcesAndMoments]
       end
    ++ [RunPostFunctions].
Proof.
  unfold Run.
  pose proof (resolver_calls
                (DeltaT (inp (CalculateQuatdot (CalculateUVWdot (CalculatePQRdot m))))
                 * of_Z (rate (CalculateQuatdot (CalculateUVWdot (CalculatePQRdot m)))))
                (record_call RunPreFunctions fdm)
                (CalculateQuatdot (CalculateUVWdot (CalculatePQRdot m))))
    as Hcalls.
  destruct (ResolveFrictionForces _ _ _) as [m' fdm'].
  cbn [snd record_call calls multipliers] in Hcalls |- *.
  rewrite Hcalls, <- !app_assoc. reflexivity.
Qed.

(** X8: A tick whose step [DeltaT * rate] fails the test [dt > 0] leaves the
    derivative fields and the multipliers that [InitializeDerivatives]
    leaves. *)
Theorem Run_without_step_is_initialisation
  (fdm : FGFDMExec F) (m : FGAccelerations F) :
  Fgtb (DeltaT (inp m) * of_Z (rate m)) F0 = false ->
  Fgtb F0 F0 = false ->
  fst (snd (Run false false fdm m)) = fst (InitializeDerivatives fdm m)
  /\ multipliers (snd (snd (Run false false fdm m)))
     = multipliers (snd (InitializeDerivatives fdm m)).
Proof.
  intros Hstep Hzero. unfold Run, InitializeDerivatives.
  fold (kinematics m).
  destruct (kinematics_keeps m) as (_ & -> & ->).
  rewrite (resolver_without_correction _ _ (record_call RunPreFunctions fdm)
             (kinematics m) Hstep Hzero).
  destruct (resolver_blind_to_calls F0 RunPreFunctions fdm (kinematics m))
    as [Hobj Hms].
  destruct (ResolveFrictionForces F0 (record_call RunPreFunctions fdm) (kinematics m))
    as [m' fdm'].
  cbn [fst snd record_call multipliers] in *. now split.
Qed.

End ResolverSurroundings.

(** ** The number of passes *)

Section PassCount.
Context {F : Type} `{Scalar F}.
Local Open Scope scalar_scope.

Lemma written_after_some_passes (dt : F) (fdm : FGFDMExec F) (m : FGAccelerations F) :
  multipliers fdm <> [] ->
  let ms := multipliers fdm in
  let n := length ms in
  let a := fst (contact_system dt fdm m) in
  let rhs := snd (contact_system dt fdm m) in
  let lambdaMin := map (@Min F) ms in
  let lambdaMax := map (@Max F) ms in
  let lambda := map (@value F) ms in
  exists k : nat,
    (1 <= k <= 50)%nat
    /\ map (@value F) (multipliers (snd (ResolveFrictionForces dt fdm m)))
       = passes k n a rhs lambdaMin lambdaMax lambda
    /\ (forall j, (j < k - 1)%nat ->
          (pass_norm j n a rhs lambdaMin lambdaMax lambda <? tolerance) = false)
    /\ ((k < 50)%nat ->
          (pass_norm (k - 1) n a rhs lambdaMin lambdaMax lambda <? tolerance) = true).
Proof.
  intros Hne ms n a rhs lambdaMin lambdaMax lambda.
  rewrite (written_multipliers dt fdm m Hne), solve_multipliers_eq.
  pose proof (gauss_seidel_runs a rhs lambdaMin lambdaMax 49 lambda) as Hruns.
  cbv zeta in Hruns.
  replace (length lambda) with n in Hruns by (symmetry; apply length_map).
  exact Hruns.
Qed.

(** X14: The loop stops at the first pass whose [norm] is under the tolerance: if
    that is pass [j] (counted from 0, [j < 50]) the multipliers written back
    are those after [j + 1] passes; if none of the first 49 passes is under
    the tolerance, they are those after 50 passes. *)
Theorem resolver_stops_at_first_converged_pass
  (dt : F) (fdm : FGFDMExec F) (m : FGAccelerations F) :
  multipliers fdm <> [] ->
  let ms := multipliers fdm in
  let n := length ms in
  let a := fst (contact_system dt fdm m) in
  let rhs := snd (contact_system dt fdm m) in
  let lambdaMin := map (@Min F) ms in
  let lambdaMax := map (@Max F) ms in
  let lambda := map (@value F) ms in
  let written := map (@value F) (multipliers (snd (ResolveFrictionForces dt fdm m))) in
  (forall j : nat,
      (j < 50)%nat ->
      (forall i, (i < j)%nat ->
         (pass_norm i n a rhs lambdaMin lambdaMax lambda <? tolerance) = false) ->
      (pass_norm j n a rhs lambdaMin lambdaMax lambda <? tolerance) = true ->
      written = passes (S j) n a rhs lambdaMin lambdaMax lambda)
  /\ ((forall i, (i < 49)%nat ->
         (pass_norm i n a rhs lambdaMin lambdaMax lambda <? tolerance) = false) ->
      written = passes 50 n a rhs lambdaMin lambdaMax lambda).
Proof.
  intros Hne ms n a rhs lambdaMin lambdaMax lambda written.
  destruct (written_after_some_passes dt fdm m Hne)
    as (k & Hk & Hwritten & Hbefore & Hlast).
  fold ms n a rhs lambdaMin lambdaMax lambda written in Hwritten, Hbefore, Hlast.
  split.
  - intros j Hj Hnot Hconv.
    assert (Hkj : k = S j).
    { destruct (Nat.lt_trichotomy (k - 1) j) as [Hlt | [Heq | Hgt]].
      - assert (Hcap : (k < 50)%nat) by lia.
        rewrite (Hnot (k - 1)%nat Hlt) in Hlast. specialize (Hlast Hcap). discriminate.
      - lia.
      - rewrite (Hbefore j Hgt) in Hconv. discriminate. }
    now rewrite Hwritten, Hkj.
  - intros Hnone.
    assert (Hk50 : k = 50%nat).
    { destruct (Nat.eq_dec k 50) as [|Hneq]; [assumption|].
      assert (Hcap : (k < 50)%nat) by lia.
      rewrite (Hnone (k - 1)%nat) in Hlast by lia. specialize (Hlast Hcap).
      discriminate. }
    now rewrite Hwritten, Hk50.
Qed.

End PassCount.

(** ** The linear system *)

Section LinearSystem.
Context {F : Type} `{Scalar F}.
Local Open Scope scalar_scope.

Lemma get_upd (l : list F) (q p : nat) (x : F) :
  (q < length l)%nat ->
  get (upd l q x) p = if (p =? q)%nat then x else get l p.
Proof.
  revert q p. induction l as [|h t IH]; intros q p Hq; simpl in Hq; [lia|].
  destruct q as [|q], p as [|p]; simpl; try reflexivity.
  apply IH. lia.
Qed.

Ltac split_tests :=
  repeat match goal with
         | |- context [(?x <=? ?y)%nat] => destruct (Nat.leb_spec x y)
         | |- context [(?x <? ?y)%nat] => destruct (Nat.ltb_spec x y)
         | |- context [(?x =? ?y)%nat] => destruct (Nat.eqb_spec x y)
         end; cbn [andb].

(** A loop that stores [f j] at [base + j] for [j] from [lo] on. *)
Lemma fill_loop (base : nat) (f : nat -> F) :
  forall (len lo : nat) (a : list F),
    (base + lo + len <= length a)%nat ->
    let a' := fold_left (fun a j => upd a (base + j) (f j)) (seq lo len) a in
    length a' = length a
    /\ forall p, get a' p
                 = if ((base + lo <=? p) && (p <? base + lo + len))%nat
                   then f (p - base)%nat else get a p.
Proof.
  induction len as [|len IH]; intros lo a Hfit; cbn [seq fold_left].
  - split; [reflexivity|]. intros p. split_tests; try reflexivity; lia.
  - destruct (IH (S lo) (upd a (base + lo) (f lo))) as [Hlen Hget].
    { rewrite upd_length. lia. }
    rewrite upd_length in Hlen. split; [exact Hlen|].
    intros p. rewrite Hget, get_upd by lia.
    split_tests; try reflexivity; try lia.
    replace (p - base)%nat with lo by lia. reflexivity.
Qed.

(** A loop that multiplies by [d] the entries from [base + lo] on. *)
Lemma scale_loop (base : nat) (d : F) :
  forall (len lo : nat) (a : list F),
    (base + lo + len <= length a)%nat ->
    let a' := fold_left (fun a j => upd a (base + j) (get a (base + j) * d))
                        (seq lo len) a in
    length a' = length a
    /\ forall p, get a' p
                 = if ((base + lo <=? p) && (p <? base + lo + len))%nat
                   then get a p * d else get a p.
Proof.
  induction len as [|len IH]; intros lo a Hfit; cbn [seq fold_left].
  - split; [reflexivity|]. intros p. split_tests; try reflexivity; lia.
  - destruct (IH (S lo) (upd a (base + lo) (get a (base + lo) * d))) as [Hlen Hget].
    { rewrite upd_length. lia. }
    rewrite upd_length in Hlen. split; [exact Hlen|].
    intros p. rewrite Hget, !get_upd by lia.
    split_tests; subst; try reflexivity; lia.
Qed.

(** The loop that copies the part of line [i] left of the diagonal from the
    lines above. *)
Lemma copy_loop (n i : nat) :
  forall (len lo : nat) (a : list F),
    (lo + len <= i)%nat -> (i < n)%nat -> length a = (n * n)%nat ->
    let a' := fold_left (fun a j => upd a (i * n + j) (get a (j * n + i)))
                        (seq lo len) a in
    length a' = (n * n)%nat
    /\ forall p, get a' p
                 = if ((i * n + lo <=? p) && (p <? i * n + lo + len))%nat
                   then get a ((p - i * n) * n + i)%nat else get a p.
Proof.
  induction len as [|len IH]; intros lo a Hlo Hi Hlen; cbn [seq fold_left].
  - split; [exact Hlen|]. intros p. split_tests; try reflexivity; lia.
  - assert (Hrow : (i * n + n <= n * n)%nat) by nia.
    destruct (IH (S lo) (upd a (i * n + lo) (get a (lo * n + i)))) as [Hlen' Hget];
      try lia.
    { rewrite upd_length. exact Hlen. }
    split; [exact Hlen'|].
    intros p. rewrite Hget, !get_upd by lia.
    destruct (Nat.leb_spec (i * n + S lo) p), (Nat.ltb_spec p (i * n + S lo + len));
      cbn [andb].
    + assert (Habove : ((p - i * n) * n + i < i * n)%nat).
      { assert (((p - i * n) + 1) * n <= i * n)%nat
          by (apply Nat.mul_le_mono_r; lia).
        lia. }
      split_tests; try reflexivity; lia.
    + split_tests; try reflexivity; lia.
    + split_tests; try reflexivity; try lia.
      subst p. replace (i * n + lo - i * n)%nat with lo by lia. reflexivity.
    + split_tests; try reflexivity; lia.
Qed.

(** The assembly, line after line: once [r] lines are done, the entries of
    those lines are the effective masses of the lower and the higher index. *)
Lemma assemble_rows (n : nat) (invMass : F) (Ji : FGMatrix33 F)
  (JacF JacM : list (FGColumnVector3 F)) :
  forall r, (r <= n)%nat ->
    let a := fold_left
               (fun a i =>
                  for_range i n
                    (fun j a => upd a (i * n + j)
                                    (effective_mass invMass Ji JacF JacM i j))
                    (for_range 0 i (fun j a => upd a (i * n + j) (get a (j * n + i))) a))
               (seq 0 r) (repeat F0 (n * n)) in
    length a = (n * n)%nat
    /\ forall i j, (i < r)%nat -> (j < n)%nat ->
         get a (i * n + j)
         = effective_mass invMass Ji JacF JacM (Nat.min i j) (Nat.max i j).
Proof.
  set (row := fun (a : list F) (i : nat) =>
                for_range i n
                  (fun j a => upd a (i * n + j) (effective_mass invMass Ji JacF JacM i j))
                  (for_range 0 i (fun j a => upd a (i * n + j) (get a (j * n + i))) a)).
  induction r as [|r IH]; intros Hr; cbv zeta.
  - split; [apply repeat_length | intros i j Hi; lia].
  - rewrite seq_S, fold_left_app. cbn [fold_left Nat.add].
    destruct (IH ltac:(lia)) as [Hlen Hdone]. clear IH.
    set (a := fold_left row (seq 0 r) (repeat F0 (n * n))) in *.
    destruct (@copy_loop n r r 0 a ltac:(lia) Hr Hlen) as [Hlen1 Hget1].
    set (a1 := fold_left _ (seq 0 r) a) in *.
    destruct (@fill_loop (r * n) (fun j => effective_mass invMass Ji JacF JacM r j)
                         (n - r) r a1) as [Hlen2 Hget2].
    { rewrite Hlen1. nia. }
    assert (Hrow : row a r
                   = fold_left
                       (fun a j => upd a (r * n + j)
                                       (effective_mass invMass Ji JacF JacM r j))
                       (seq r (n - r)) a1).
    { unfold row. rewrite for_range_from_zero. reflexivity. }
    rewrite Hrow.
    split; [now rewrite Hlen2|].
    intros i j Hi Hj. rewrite Hget2, Hget1.
    assert (Hi' : (i < r \/ i = r)%nat) by lia.
    destruct Hi' as [Hi' | ->].
    + assert ((i + 1) * n <= r * n)%nat by (apply Nat.mul_le_mono_r; lia).
      split_tests; try lia. apply Hdone; assumption.
    + destruct (Nat.lt_ge_cases j r) as [Hjr | Hjr].
      * split_tests; try lia.
        replace (r * n + j - r * n)%nat with j by lia.
        rewrite (Hdone j r Hjr Hr), Nat.min_comm, Nat.max_comm. reflexivity.
      * split_tests; try lia.
        replace (r * n + j - r * n)%nat with j by lia.
        now rewrite Nat.min_l, Nat.max_r by lia.
Qed.

Lemma assemble_get (n : nat) (invMass : F) (Ji : FGMatrix33 F)
  (JacF JacM : list (FGColumnVector3 F)) :
  length (assemble n invMass Ji JacF JacM) = (n * n)%nat
  /\ forall i j, (i < n)%nat -> (j < n)%nat ->
       get (assemble n invMass Ji JacF JacM) (i * n + j)
       = effective_mass invMass Ji JacF JacM (Nat.min i j) (Nat.max i j).
Proof.
  unfold assemble. rewrite for_range_from_zero.
  exact (@assemble_rows n invMass Ji JacF JacM n (Nat.le_refl n)).
Qed.

(** X12: The assembly leaves an [n] by [n] matrix whose entry on line [i] and
    column [j] is the effective mass of the lower and the higher of the two
    indices: every entry is set, the part left of the diagonal mirrors the
    part right of it, and the matrix is symmetric entry for entry. *)
Theorem assemble_entries (n : nat) (invMass : F) (Ji : FGMatrix33 F)
  (JacF JacM : list (FGColumnVector3 F)) :
  let a := assemble n invMass Ji JacF JacM in
  length a = (n * n)%nat
  /\ forall i j, (i < n)%nat -> (j < n)%nat ->
       get a (i * n + j)
       = effective_mass invMass Ji JacF JacM (Nat.min i j) (Nat.max i j)
       /\ get a (i * n + j) = get a (j * n + i).
Proof.
  cbv zeta. destruct (assemble_get n invMass Ji JacF JacM) as [Hlen Hall].
  split; [exact Hlen|]. intros i j Hi Hj. split.
  - apply Hall; assumption.
  - rewrite (Hall i j Hi Hj), (Hall j i Hj Hi), Nat.min_comm, Nat.max_comm.
    reflexivity.
Qed.

(** The preparation, line after line. *)
Lemma prepare_get (n : nat) (JacF JacM : list (FGColumnVector3 F))
  (vdot wdot : FGColumnVector3 F) (a0 : list F) :
  length a0 = (n * n)%nat ->
  let s := prepare n JacF JacM vdot wdot a0 in
  length (fst s) = (n * n)%nat
  /\ length (snd s) = n
  /\ (forall i j, (j < n)%nat ->
        get (fst s) (i * n + j)
        = if (i <? n)%nat
          then get a0 (i * n + j) * (F1 / get a0 (i * n + i))
          else get a0 (i * n + j))
  /\ (forall i, (i < n)%nat ->
        get (snd s) i
        = - (DotProduct (getv JacF i) vdot + DotProduct (getv JacM i) wdot)
          * (F1 / get a0 (i * n + i))).
Proof.
  intros Hlen0. cbv zeta. unfold prepare. rewrite for_range_from_zero.
  match goal with
  | |- context [fold_left ?f (seq 0 n) (a0, repeat F0 n)] => set (step := f)
  end.
  assert (Hstep : forall r, (r <= n)%nat ->
            let s := fold_left step (seq 0 r) (a0, repeat F0 n) in
            length (fst s) = (n * n)%nat
            /\ length (snd s) = n
            /\ (forall i j, (j < n)%nat ->
                  get (fst s) (i * n + j)
                  = if (i <? r)%nat
                    then get a0 (i * n + j) * (F1 / get a0 (i * n + i))
                    else get a0 (i * n + j))
            /\ (forall i, (i < r)%nat ->
                  get (snd s) i
                  = - (DotProduct (getv JacF i) vdot + DotProduct (getv JacM i) wdot)
                    * (F1 / get a0 (i * n + i)))).
  { induction r as [|r IH]; intros Hr; cbv zeta.
    - cbn [seq fold_left fst snd]. split; [exact Hlen0|]. split; [apply repeat_length|].
      split; [reflexivity | intros i Hi; lia].
    - rewrite seq_S, fold_left_app. cbn [fold_left Nat.add].
      destruct (IH ltac:(lia)) as (Hla & Hlr & Ha & Hrhs). clear IH.
      destruct (fold_left step (seq 0 r) (a0, repeat F0 n)) as [a rhs].
      cbn [fst snd] in Hla, Hlr, Ha, Hrhs.
      assert (Hdiag : get a (r * n + r) = get a0 (r * n + r)).
      { rewrite (Ha r r) by lia. now rewrite Nat.ltb_irrefl. }
      assert (Hrow : step (a, rhs) r
                     = (fold_left
                          (fun a j => upd a (r * n + j)
                                          (get a (r * n + j) * (F1 / get a0 (r * n + r))))
                          (seq 0 n) a,
                        upd rhs r
                            (- (DotProduct (getv JacF r) vdot
                                + DotProduct (getv JacM r) wdot)
                             * (F1 / get a0 (r * n + r))))).
      { unfold step. cbv beta iota zeta. rewrite for_range_from_zero, Hdiag.
        reflexivity. }
      rewrite Hrow. cbn [fst snd].
      destruct (@scale_loop (r * n) (F1 / get a0 (r * n + r)) n 0 a) as [Hla' Hget].
      { rewrite Hla. nia. }
      split; [now rewrite Hla', Hla|]. split; [now rewrite upd_length|]. split.
      + intros i j Hj. rewrite Hget, (Ha i j Hj).
        destruct (Nat.lt_trichotomy i r) as [Hi | [-> | Hi]].
        * assert ((i + 1) * n <= r * n)%nat by (apply Nat.mul_le_mono_r; lia).
          split_tests; try lia. reflexivity.
        * split_tests; try lia. reflexivity.
        * assert ((r + 1) * n <= i * n)%nat by (apply Nat.mul_le_mono_r; lia).
          split_tests; try lia. reflexivity.
      + intros i Hi. rewrite get_upd by lia.
        destruct (Nat.eqb_spec i r) as [-> | Hneq]; [reflexivity|].
        apply Hrhs. lia. }
  exact (Hstep n (Nat.le_refl n)).
Qed.

(** X13: The right hand side and the division by the diagonal: every entry of line
    [i] of the matrix is multiplied by the quotient [1.0 / a[i,i]] taken before
    the line is touched, and [rhs[i]] is the opposite of the target
    acceleration along the constraint times the same quotient. *)
Theorem prepare_entries (n : nat) (JacF JacM : list (FGColumnVector3 F))
  (vdot wdot : FGColumnVector3 F) (a0 : list F) :
  length a0 = (n * n)%nat ->
  let s := prepare n JacF JacM vdot wdot a0 in
  length (fst s) = (n * n)%nat
  /\ length (snd s) = n
  /\ (forall i j, (i < n)%nat -> (j < n)%nat ->
        get (fst s) (i * n + j) = get a0 (i * n + j) * (F1 / get a0 (i * n + i)))
  /\ (forall i, (i < n)%nat ->
        get (snd s) i
        = - (DotProduct (getv JacF i) vdot + DotProduct (getv JacM i) wdot)
          * (F1 / get a0 (i * n + i))).
Proof.
  intros Hlen0. cbv zeta.
  destruct (@prepare_get n JacF JacM vdot wdot a0 Hlen0) as (Hla & Hlr & Ha & Hrhs).
  split; [exact Hla|]. split; [exact Hlr|]. split; [|exact Hrhs].
  intros i j Hi Hj. rewrite (Ha i j Hj).
  destruct (Nat.ltb_spec i n); [reflexivity | lia].
Qed.

(** The system handed to the Gauss-Seidel loop: the effective mass matrix with
    every line divided by its diagonal entry, and the right hand side divided
    likewise. *)
Lemma contact_system_entries (dt : F) (fdm : FGFDMExec F) (m : FGAccelerations F) :
  let ms := multipliers fdm in
  let n := length ms in
  let JacF := map (@ForceJacobian F) ms in
  let JacM := map (@MomentJacobian F) ms in
  let E := effective_mass (F1 / Mass (inp m)) (Jinv (inp m)) JacF JacM in
  length (fst (contact_system dt fdm m)) = (n * n)%nat
  /\ length (snd (contact_system dt fdm m)) = n
  /\ (forall i j, (i < n)%nat -> (j < n)%nat ->
        get (fst (contact_system dt fdm m)) (i * n + j)
        = E (Nat.min i j) (Nat.max i j) * (F1 / E i i))
  /\ (forall i, (i < n)%nat ->
        get (snd (contact_system dt fdm m)) i
        = - (DotProduct (getv JacF i) (target_vdot dt fdm m)
             + DotProduct (getv JacM i) (target_wdot dt fdm m))
          * (F1 / E i i)).
Proof.
  cbv zeta. unfold contact_system.
  destruct (assemble_get (length (multipliers fdm)) (F1 / Mass (inp m))
              (Jinv (inp m)) (map (@ForceJacobian F) (multipliers fdm))
              (map (@MomentJacobian F) (multipliers fdm))) as [Hlen Hentries].
  destruct (@prepare_get (length (multipliers fdm))
              (map (@ForceJacobian F) (multipliers fdm))
              (map (@MomentJacobian F) (multipliers fdm))
              (target_vdot dt fdm m) (target_wdot dt fdm m) _ Hlen)
    as (Hla & Hlr & Ha & Hrhs).
  split; [exact Hla|]. split; [exact Hlr|]. split.
  - intros i j Hi Hj. rewrite (Ha i j Hj).
    destruct (Nat.ltb_spec i (length (multipliers fdm))); [|lia].
    rewrite (Hentries i j Hi Hj), (Hentries i i Hi Hi).
    now rewrite Nat.min_id, Nat.max_id.
  - intros i Hi. rewrite (Hrhs i Hi), (Hentries i i Hi Hi).
    now rewrite Nat.min_id, Nat.max_id.
Qed.

End LinearSystem.

(** ** Exact arithmetic *)

Section ExactArithmetic.
Context {F : Type} `{Scalar F} {HF : FieldLaws F}.
Local Open Scope scalar_scope.

Add Field exact_field : (@F_field F _ HF).

Lemma fold_sub_shift (t : nat -> F) (l : list nat) :
  forall d c : F,
    fold_left (fun d j => d - t j) l (d + c) = fold_left (fun d j => d - t j) l d + c.
Proof.
  induction l as [|j l IH]; intros d c; cbn [fold_left]; [reflexivity|].
  rewrite <- IH. f_equal. ring.
Qed.

(** With a diagonal entry equal to one, the old value of a component plus the
    residual of its line is the right hand side minus the products with the
    other components. *)
Lemma residual_without_own_term (n : nat) (a rhs lambda : list F) (i : nat) :
  (i < n)%nat ->
  get a (i * n + i) = F1 ->
  get lambda i + residual n a rhs i lambda = others_residual n a rhs i lambda.
Proof.
  intros Hi Hdiag. unfold residual, others_residual.
  assert (Hseq : seq 0 n = seq 0 i ++ i :: seq (S i) (n - S i)).
  { replace n with (i + S (n - S i))%nat at 1 by lia. now rewrite seq_app. }
  rewrite Hseq, !fold_left_app. cbn [fold_left].
  set (before := fold_left _ (seq 0 i) (get rhs i)).
  rewrite Hdiag.
  replace (before - F1 * get lambda i) with (before + - get lambda i) by ring.
  rewrite fold_sub_shift. ring.
Qed.

(** X15: In exact arithmetic and with non-zero effective masses on the diagonal,
    the update of component [i] in a pass over the contact system reads the
    other multipliers only: the value stored is the clamp of the right hand
    side minus the products of line [i] with the multipliers of the other
    contacts, whatever the component held. *)
Theorem update_reads_other_multipliers
  (dt : F) (fdm : FGFDMExec F) (m : FGAccelerations F)
  (lambda : list F) (norm : F) (i : nat) :
  let ms := multipliers fdm in
  let n := length ms in
  let a := fst (contact_system dt fdm m) in
  let rhs := snd (contact_system dt fdm m) in
  (i < n)%nat ->
  effective_mass (F1 / Mass (inp m)) (Jinv (inp m))
                 (map (@ForceJacobian F) ms) (map (@MomentJacobian F) ms) i i <> F0 ->
  fst (sweep_component n a rhs (map (@Min F) ms) (map (@Max F) ms) i (lambda, norm))
  = upd lambda i
        (Constrain (get (map (@Min F) ms) i)
                   (others_residual n a rhs i lambda)
                   (get (map (@Max F) ms) i)).
Proof.
  intros ms n a rhs Hi Hmass.
  destruct (contact_system_entries dt fdm m) as (_ & _ & Hentries & _).
  assert (Hdiag : get a (i * n + i) = F1).
  { unfold a, n, ms. rewrite (Hentries i i Hi Hi), Nat.min_id, Nat.max_id.
    pose proof (Finv_l F_field _ Hmass) as Hinv. cbv beta in Hinv. unfold ms in Hinv.
    etransitivity; [|exact Hinv]. ring. }
  unfold sweep_component. cbn [fst]. rewrite for_range_from_zero.
  fold (residual n a rhs i lambda).
  now rewrite (@residual_without_own_term n a rhs lambda i Hi Hdiag).
Qed.

Lemma mvmul_zero (M : FGMatrix33 F) : (M *v InitMatrix)%V = InitMatrix.
Proof.
  destruct M as [[? ? ?] [? ? ?] [? ? ?]].
  cbv [mvmul DotProduct InitMatrix row1 row2 row3 vx vy vz]. f_equal; ring.
Qed.

Lemma cross_zero_l (v : FGColumnVector3 F) : (InitMatrix *x v)%V = InitMatrix.
Proof.
  destruct v. cbv [cross InitMatrix vx vy vz]. f_equal; ring.
Qed.

Lemma vadd_zero_l (v : FGColumnVector3 F) : (InitMatrix + v)%V = v.
Proof.
  destruct v. cbv [vadd InitMatrix vx vy vz]. f_equal; ring.
Qed.

Lemma vsub_zero (v : FGColumnVector3 F) : (v - InitMatrix)%V = v.
Proof.
  destruct v. cbv [vsub InitMatrix vx vy vz]. f_equal; ring.
Qed.

Lemma smul_zero (k : F) : (k *s InitMatrix)%V = InitMatrix.
Proof. cbv [smul InitMatrix vx vy vz]. f_equal; ring. Qed.

Lemma vdiv_zero (k : F) : (InitMatrix /s k)%V = InitMatrix.
Proof.
  cbv [vdiv InitMatrix vx vy vz]. rewrite (Fdiv_def F_field F0 k). f_equal; ring.
Qed.

(** X3: In exact arithmetic, with no applied force or moment, no body rate and a
    planet that does not turn, the kinematics store the gravity alone: both
    rotational derivatives and the net body acceleration are zero, the
    body-frame translational derivative is the stored gravity and the
    inertial one is that gravity turned by [Tb2i], whatever the velocity and
    the position. *)
Theorem gravity_only_at_rest (m : FGAccelerations F) :
  Force (inp m) = InitMatrix ->
  Moment (inp m) = InitMatrix ->
  vPQR (inp m) = InitMatrix ->
  vPQRi (inp m) = InitMatrix ->
  vOmegaPlanet (inp m) = InitMatrix ->
  vPQRidot (kinematics m) = InitMatrix
  /\ vPQRdot (kinematics m) = InitMatrix
  /\ vBodyAccel (kinematics m) = InitMatrix
  /\ vUVWdot (kinematics m) = vGravAccel (kinematics m)
  /\ vUVWidot (kinematics m) = (Tb2i (inp m) *v vGravAccel (kinematics m))%V.
Proof.
  intros HF0 HM0 Hw Hwi HO.
  unfold kinematics, CalculateQuatdot, CalculateUVWdot, CalculatePQRdot.
  cbn [gravType rate inp set_vPQRdot set_vPQRidot set_vUVWdot set_vBodyAccel
       vPQRidot vPQRdot vBodyAccel].
  rewrite HF0, HM0, Hw, Hwi, HO.
  rewrite !mvmul_zero, !cross_zero_l, !smul_zero, !vdiv_zero, !mvmul_zero,
    !vsub_zero, !vadd_zero_l, !cross_zero_l, !vsub_zero.
  destruct (Z.eqb (gravType m) gtStandard), (Z.eqb (gravType m) gtWGS84);
    cbn [set_vGravAccel set_vUVWdot set_vUVWidot set_vQtrndot vPQRidot vPQRdot
         vBodyAccel vUVWdot vUVWidot vGravAccel];
    rewrite ?vadd_zero_l, ?mvmul_zero; repeat split; reflexivity.
Qed.

End ExactArithmetic.

(** ** Contacts that do not interact *)

Section IndependentContacts.
Context {F : Type} `{Scalar F} {HF : FieldLaws F}.
Local Open Scope scalar_scope.

Add Field independent_field : (@F_field F _ HF).

Lemma fold_sub_zero_terms (t : nat -> F) (l : list nat) (d : F) :
  (forall j, In j l -> t j = F0) ->
  fold_left (fun d j => d - t j) l d = d.
Proof.
  revert d. induction l as [|j l IH]; intros d Hzero; cbn [fold_left]; [reflexivity|].
  rewrite IH by (intros k Hk; apply Hzero; now right).
  rewrite (Hzero j) by now left. ring.
Qed.

(** On a system with ones on the diagonal and zeros elsewhere, the old value
    of a component plus the residual of its line is the right hand side. *)
Lemma residual_of_diagonal_system (n : nat) (a rhs lambda : list F) (i : nat) :
  (i < n)%nat ->
  get a (i * n + i) = F1 ->
  (forall j, (j < n)%nat -> j <> i -> get a (i * n + j) = F0) ->
  get lambda i + residual n a rhs i lambda = get rhs i.
Proof.
  intros Hi Hdiag Hoff.
  rewrite (@residual_without_own_term F _ HF n a rhs lambda i Hi Hdiag).
  unfold others_residual.
  apply (fold_sub_zero_terms (fun j => get a (i * n + j) * get lambda j)).
  intros j Hj. rewrite Hoff; [ring | | ].
  - apply in_app_or in Hj. destruct Hj as [Hj | Hj]; apply in_seq in Hj; lia.
  - apply in_app_or in Hj. destruct Hj as [Hj | Hj]; apply in_seq in Hj; lia.
Qed.

(** A pass over such a system stores the clamped right hand side in every
    component, whatever the multipliers were. *)
Lemma pgs_pass_from_diagonal (n : nat) (a rhs lambdaMin lambdaMax : list F) :
  (forall i, (i < n)%nat -> get a (i * n + i) = F1) ->
  (forall i j, (i < n)%nat -> (j < n)%nat -> j <> i -> get a (i * n + j) = F0) ->
  forall (todo done : list F) (norm : F),
    (length done + length todo = n)%nat ->
    fst (pgs_pass_from n a rhs lambdaMin lambdaMax done todo norm)
    = done ++ map (fun i => Constrain (get lambdaMin i) (get rhs i) (get lambdaMax i))
                  (seq (length done) (length todo)).
Proof.
  intros Hdiag Hoff.
  induction todo as [|x rest IH]; intros done norm Hlen.
  - cbn. now rewrite app_nil_r.
  - cbn [pgs_pass_from length seq map]. cbn [length] in Hlen.
    rewrite IH by (rewrite length_app; cbn [length]; lia).
    rewrite length_app, Nat.add_1_r, <- app_assoc. cbn [app].
    do 3 f_equal.
    pose proof (@residual_of_diagonal_system n a rhs (done ++ x :: rest) (length done))
      as Hres.
    rewrite get_middle in Hres. apply Hres; [lia | apply Hdiag; lia |].
    intros j Hj Hneq. apply Hoff; [lia | exact Hj | exact Hneq].
Qed.

Lemma passes_diagonal (k n : nat) (a rhs lambdaMin lambdaMax lambda : list F) :
  (forall i, (i < n)%nat -> get a (i * n + i) = F1) ->
  (forall i j, (i < n)%nat -> (j < n)%nat -> j <> i -> get a (i * n + j) = F0) ->
  length lambda = n ->
  passes (S k) n a rhs lambdaMin lambdaMax lambda
  = map (fun i => Constrain (get lambdaMin i) (get rhs i) (get lambdaMax i)) (seq 0 n).
Proof.
  intros Hdiag Hoff Hlen. cbn [passes]. unfold pgs_pass.
  rewrite (@pgs_pass_from_diagonal n a rhs lambdaMin lambdaMax Hdiag Hoff
             (passes k n a rhs lambdaMin lambdaMax lambda) [] F0).
  - cbn [app length]. now rewrite passes_length, Hlen.
  - cbn [length]. now rewrite passes_length.
Qed.

(** X16: In exact arithmetic, contacts whose mutual effective masses are zero and
    whose own effective masses are not are resolved one by one: the
    multiplier written for contact [i] is the clamp to its bounds of the
    opposite of the target acceleration along its constraint divided by its
    own effective mass, whatever the multipliers stored before. *)
Theorem independent_contacts_resolve_separately
  (dt : F) (fdm : FGFDMExec F) (m : FGAccelerations F) :
  let ms := multipliers fdm in
  let n := length ms in
  let JacF := map (@ForceJacobian F) ms in
  let JacM := map (@MomentJacobian F) ms in
  let E := effective_mass (F1 / Mass (inp m)) (Jinv (inp m)) JacF JacM in
  ms <> [] ->
  (forall i, (i < n)%nat -> E i i <> F0) ->
  (forall i j, (i < j)%nat -> (j < n)%nat -> E i j = F0) ->
  map (@value F) (multipliers (snd (ResolveFrictionForces dt fdm m)))
  = map (fun i =>
           Constrain (get (map (@Min F) ms) i)
                     (- (DotProduct (getv JacF i) (target_vdot dt fdm m)
                         + DotProduct (getv JacM i) (target_wdot dt fdm m))
                      / E i i)
                     (get (map (@Max F) ms) i))
        (seq 0 n).
Proof.
  intros ms n JacF JacM E Hne Hown Hmutual.
  destruct (contact_system_entries dt fdm m) as (_ & _ & Hentries & Hrhs).
  fold ms n JacF JacM E in Hentries, Hrhs.
  assert (Hdiag : forall i, (i < n)%nat ->
            get (fst (contact_system dt fdm m)) (i * n + i) = F1).
  { intros i Hi. rewrite (Hentries i i Hi Hi), Nat.min_id, Nat.max_id.
    pose proof (Finv_l F_field _ (Hown i Hi)) as Hinv. cbv beta in Hinv.
    etransitivity; [|exact Hinv]. ring. }
  assert (Hoff : forall i j, (i < n)%nat -> (j < n)%nat -> j <> i ->
            get (fst (contact_system dt fdm m)) (i * n + j) = F0).
  { intros i j Hi Hj Hneq. rewrite (Hentries i j Hi Hj).
    rewrite (Hmutual (Nat.min i j) (Nat.max i j)) by lia. ring. }
  rewrite (written_multipliers dt fdm m Hne), solve_multipliers_eq.
  fold ms n.
  destruct (gauss_seidel_runs (fst (contact_system dt fdm m))
              (snd (contact_system dt fdm m)) (map (@Min F) ms) (map (@Max F) ms)
              49 (map (@value F) ms)) as (k & Hk & Hrun & _).
  rewrite length_map in Hrun. fold n in Hrun. rewrite Hrun.
  destruct k as [|k]; [lia|].
  rewrite (@passes_diagonal k n (fst (contact_system dt fdm m))
             (snd (contact_system dt fdm m)) (map (@Min F) ms)
             (map (@Max F) ms) (map (@value F) ms) Hdiag Hoff)
    by (unfold n; apply length_map).
  apply map_ext_in. intros i Hi. apply in_seq in Hi.
  rewrite (Hrhs i) by lia. f_equal. symmetry. apply (Fdiv_def F_field).
Qed.

End IndependentContacts.

(** ** Initialisation and the fields that the resolver leaves alone *)

Section Ticks.
Context {F : Type} `{Scalar F}.
Local Open Scope scalar_scope.

Lemma resolver_keeps_kinematic_fields
  (dt : F) (fdm : FGFDMExec F) (m : FGAccelerations F) :
  let m' := fst (ResolveFrictionForces dt fdm m) in
  vQtrndot m' = vQtrndot m /\ vGravAccel m' = vGravAccel m
  /\ vBodyAccel m' = vBodyAccel m /\ gravType m' = gravType m
  /\ rate m' = rate m /\ inp m' = inp m.
Proof.
  cbv zeta. destruct (multipliers fdm) as [|c cs] eqn:Ems.
  - unfold ResolveFrictionForces. rewrite Ems. cbn [length fst].
    repeat split; reflexivity.
  - assert (Hne : multipliers fdm <> []) by (rewrite Ems; discriminate).
    rewrite (ResolveFrictionForces_contact dt fdm m Hne). read_fields.
    repeat split; reflexivity.
Qed.

(** X4: After [InitializeDerivatives], and after a call of [Run] that does the
    work, the attitude derivative is [GetQDot] of the inertial attitude and
    rate, the net body acceleration is Force/Mass and the stored gravity is
    the one the translational computation stored: the resolver that runs last
    does not disturb them, nor the selector and the inputs. *)
Theorem tick_keeps_kinematic_fields (fdm : FGFDMExec F) (m : FGAccelerations F) :
  let after_init := fst (InitializeDerivatives fdm m) in
  let after_run := fst (snd (Run false false fdm m)) in
  (vQtrndot after_init = GetQDot (qAttitudeECI (inp m)) (vPQRi (inp m))
   /\ vBodyAccel after_init = (Force (inp m) /s Mass (inp m))%V
   /\ vGravAccel after_init = vGravAccel (CalculateUVWdot m)
   /\ gravType after_init = gravType m /\ inp after_init = inp m)
  /\ (vQtrndot after_run = GetQDot (qAttitudeECI (inp m)) (vPQRi (inp m))
      /\ vBodyAccel after_run = (Force (inp m) /s Mass (inp m))%V
      /\ vGravAccel after_run = vGravAccel (CalculateUVWdot m)
      /\ gravType after_run = gravType m /\ inp after_run = inp m).
Proof.
  assert (Hkin : vQtrndot (kinematics m) = GetQDot (qAttitudeECI (inp m)) (vPQRi (inp m))
                 /\ vBodyAccel (kinematics m) = (Force (inp m) /s Mass (inp m))%V
                 /\ vGravAccel (kinematics m) = vGravAccel (CalculateUVWdot m)
                 /\ gravType (kinematics m) = gravType m
                 /\ inp (kinematics m) = inp m).
  { unfold kinematics, CalculateQuatdot, CalculateUVWdot, CalculatePQRdot.
    cbn [gravType rate inp set_vPQRdot set_vPQRidot set_vUVWdot set_vBodyAccel
         vBodyAccel vGravAccel].
    destruct (Z.eqb (gravType m) gtStandard), (Z.eqb (gravType m) gtWGS84);
      repeat split; reflexivity. }
  destruct Hkin as (Hq & Hb & Hg & Hs & Hi).
  cbv zeta. split.
  - unfold InitializeDerivatives. fold (kinematics m).
    destruct (resolver_keeps_kinematic_fields F0 fdm (kinematics m))
      as (-> & -> & -> & -> & _ & ->).
    repeat split; assumption.
  - unfold Run. fold (kinematics m).
    destruct (resolver_keeps_kinematic_fields
                (DeltaT (inp (kinematics m)) * of_Z (rate (kinematics m)))
                (record_call RunPreFunctions fdm) (kinematics m))
      as (Hq' & Hg' & Hb' & Hs' & _ & Hi').
    destruct (ResolveFrictionForces _ _ _) as [m' fdm'].
    cbn [fst snd] in *. rewrite Hq', Hg', Hb', Hs', Hi'.
    repeat split; assumption.
Qed.

(** X5: [InitModel] always succeeds.  It clears the inertial derivatives, the
    gravity and the body acceleration but not the body-frame derivatives
    [vPQRdot] and [vUVWdot], which keep what they held; with a recognised
    selector this makes no difference to the next evaluation, which is the
    same with and without the call. *)
Theorem InitModel_effect (q000 : FGQuaternion F) (m : FGAccelerations F)
  (fdm : FGFDMExec F) :
  let m' := snd (InitModel q000 m) in
  fst (InitModel q000 m) = true
  /\ vPQRidot m' = InitMatrix /\ vUVWidot m' = InitMatrix
  /\ vGravAccel m' = InitMatrix /\ vBodyAccel m' = InitMatrix
  /\ vQtrndot m' = q000
  /\ vPQRdot m' = vPQRdot m /\ vUVWdot m' = vUVWdot m
  /\ (gravType m = gtStandard \/ gravType m = gtWGS84 ->
      InitializeDerivatives fdm m' = InitializeDerivatives fdm m).
Proof.
  cbv zeta. do 8 (split; [reflexivity|]).
  intros Hrec.
  unfold InitializeDerivatives.
  fold (kinematics (snd (InitModel q000 m))). fold (kinematics m).
  rewrite (@kinematics_from_inputs F _ (snd (InitModel q000 m)) m);
    try reflexivity.
  left. exact Hrec.
Qed.

End Ticks.

(** ** The further properties at work on the scenario *)

(** An object fresh from construction and one that has already been through
    the kinematics initialise alike. *)
Lemma derivatives_depend_on_inputs_only_run :
  InitializeDerivatives (ground [wheel F0 (of_Z 1000000) F0])
                        (rest_model gtWGS84 : FGAccelerations float)
  = InitializeDerivatives (ground [wheel F0 (of_Z 1000000) F0])
                          (falling_model gtWGS84).
Proof.
  refine (proj1 (proj2 (@derivatives_depend_on_inputs_only float _
                          (rest_model gtWGS84) (falling_model gtWGS84)
                          (ground [wheel F0 (of_Z 1000000) F0]) _ _ _ _))).
  - left. right. reflexivity.
  - reflexivity.
  - reflexivity.
  - reflexivity.
Defined.


(** On the scenario the body-frame translational derivative is the one of the
    kinematics plus the acceleration of the written multiplier. *)
Lemma added_loads_match_written_multipliers_run :
  let m : FGAccelerations float := falling_model gtWGS84 in
  let fdm := ground [wheel F0 (of_Z 1000000) F0] in
  let fdm' := snd (ResolveFrictionForces F0 fdm m) in
  vUVWdot (fst (ResolveFrictionForces F0 fdm m))
  = vadd (vUVWdot m)
         (smul (Fdiv F1 (Mass (inp m)))
               (fst (contact_loads (length (multipliers fdm'))
                                   (map (@value float) (multipliers fdm'))
                                   (map (@ForceJacobian float) (multipliers fdm'))
                                   (map (@MomentJacobian float) (multipliers fdm'))))).
Proof.
  cbv zeta.
  refine (proj1 (@added_loads_match_written_multipliers float _ F0
                   (ground [wheel F0 (of_Z 1000000) F0]) (falling_model gtWGS84) _)).
  discriminate.
Defined.

(** With a rate of 0 a tick leaves the derivatives of the initialisation. *)
Lemma Run_without_step_is_initialisation_run :
  fst (snd (Run false false (ground [wheel F0 (of_Z 1000000) F0])
                (unscheduled_model gtWGS84 : FGAccelerations float)))
  = fst (InitializeDerivatives (ground [wheel F0 (of_Z 1000000) F0])
                               (unscheduled_model gtWGS84)).
Proof.
  refine (proj1 (@Run_without_step_is_initialisation float _
                   (ground [wheel F0 (of_Z 1000000) F0])
                   (unscheduled_model gtWGS84) _ _)); reflexivity.
Defined.

(** On binary64 the scenario converges at its second pass: the first pass
    moves the multiplier from 0 to mass times gravity, the second leaves it. *)
Lemma resolver_stops_at_first_converged_pass_run :
  let m : FGAccelerations float := falling_model gtWGS84 in
  let fdm := ground [wheel F0 (of_Z 1000000) F0] in
  map (@value float) (multipliers (snd (ResolveFrictionForces F0 fdm m)))
  = passes 2 1 (fst (contact_system F0 fdm m)) (snd (contact_system F0 fdm m))
           [F0] [of_Z 1000000] [F0].
Proof.
  cbv zeta.
  refine (proj1 (@resolver_stops_at_first_converged_pass float _ F0
                   (ground [wheel F0 (of_Z 1000000) F0]) (falling_model gtWGS84) _)
                1%nat _ _ _).
  - discriminate.
  - lia.
  - intros i Hi. assert (i = 0%nat) as -> by lia. vm_compute. reflexivity.
  - vm_compute. reflexivity.
Defined.

(** A one by one system: the entry 4 becomes 4 * (1/4). *)
Lemma prepare_entries_run :
  get (fst (prepare 1 [Vec3 F0 F0 (Fopp F1)] [InitMatrix]
                    (Vec3 F0 F0 (of_Z 8)) InitMatrix [of_Z 4 : float])) 0
  = Fmul (of_Z 4) (Fdiv F1 (of_Z 4))
  /\ get (snd (prepare 1 [Vec3 F0 F0 (Fopp F1)] [InitMatrix]
                       (Vec3 F0 F0 (of_Z 8)) InitMatrix [of_Z 4 : float])) 0
     = of_Z 2.
Proof.
  destruct (@prepare_entries float _ 1 [Vec3 F0 F0 (Fopp F1)] [InitMatrix]
              (Vec3 F0 F0 (of_Z 8)) InitMatrix [of_Z 4] eq_refl)
    as (_ & _ & Hmatrix & Hrhs).
  split.
  - exact (Hmatrix 0%nat 0%nat (Nat.lt_0_succ 0) (Nat.lt_0_succ 0)).
  - rewrite (Hrhs 0%nat (Nat.lt_0_succ 0)). vm_compute. reflexivity.
Defined.

(** Two contacts at right angles, over the rationals: the update of the first
    does not read its own multiplier. *)
Lemma update_reads_other_multipliers_run :
  let m : FGAccelerations Qc := falling_model gtWGS84 in
  let fdm := ground [wheel F0 (of_Z 1000000) F0; skid (Fopp (of_Z 5)) (of_Z 5) F0] in
  fst (sweep_component 2 (fst (contact_system F0 fdm m)) (snd (contact_system F0 fdm m))
                       [F0; Fopp (of_Z 5)] [of_Z 1000000; of_Z 5] 0
                       ([of_Z 7; of_Z 9], F0))
  = upd [of_Z 7; of_Z 9] 0
        (Constrain F0
                   (others_residual 2 (fst (contact_system F0 fdm m))
                                    (snd (contact_system F0 fdm m)) 0 [of_Z 7; of_Z 9])
                   (of_Z 1000000)).
Proof.
  cbv zeta.
  refine (@update_reads_other_multipliers Qc _ _ F0
            (ground [wheel F0 (of_Z 1000000) F0; skid (Fopp (of_Z 5)) (of_Z 5) F0])
            (falling_model gtWGS84) [of_Z 7; of_Z 9] F0 0%nat _ _).
  - cbn. lia.
  - intro E. apply (f_equal this) in E. vm_compute in E. discriminate.
Defined.

(** The vehicle at rest, over the rationals. *)
Lemma gravity_only_at_rest_run :
  vUVWdot (kinematics (rest_model gtWGS84 : FGAccelerations Qc))
  = vGravAccel (kinematics (rest_model gtWGS84))
  /\ vPQRdot (kinematics (rest_model gtWGS84 : FGAccelerations Qc)) = InitMatrix.
Proof.
  destruct (@gravity_only_at_rest Qc _ _ (rest_model gtWGS84)
              eq_refl eq_refl eq_refl eq_refl eq_refl) as (_ & Hrot & _ & Htrans & _).
  split; assumption.
Defined.

(** Two contacts at right angles, over the rationals: the first carries the
    weight, 96.6, and the second nothing. *)
Lemma independent_contacts_resolve_separately_run :
  map (@value Qc)
      (multipliers
         (snd (ResolveFrictionForces F0
                 (ground [wheel F0 (of_Z 1000000) F0; skid (Fopp (of_Z 5)) (of_Z 5) (of_Z 3)])
                 (falling_model gtWGS84))))
  = [Fdiv (of_Z 966) (of_Z 10); F0].
Proof.
  rewrite (@independent_contacts_resolve_separately Qc _ _ F0
             (ground [wheel F0 (of_Z 1000000) F0; skid (Fopp (of_Z 5)) (of_Z 5) (of_Z 3)])
             (falling_model gtWGS84)).
  - cbn [seq map length multipliers ground].
    repeat match goal with
           | |- _ :: _ = _ :: _ => f_equal
           end; apply Qc_is_canon; vm_compute; reflexivity.
  - discriminate.
  - intros i Hi. destruct i as [|[|i]]; [| |cbn in Hi; lia];
      intro E; apply (f_equal this) in E; vm_compute in E; discriminate.
  - intros i j Hij Hj. cbn in Hj.
    assert (i = 0%nat /\ j = 1%nat) as [-> ->] by lia.
    apply Qc_is_canon. vm_compute. reflexivity.
Defined.

(** * Bounds and closed formulas on binary64 *)

(** ** The comparisons of binary64 *)

Lemma SFcompare_antisym (x y : spec_float) :
  SFcompare y x = option_map CompOpp (SFcompare x y).
Proof.
  destruct x as [sx | sx | | sx mx ex], y as [sy | sy | | sy my ey];
    cbn [SFcompare option_map]; try reflexivity;
    try (destruct sx; reflexivity); try (destruct sy; reflexivity);
    try (destruct sx, sy; reflexivity).
  destruct sx, sy; cbn [CompOpp]; try reflexivity;
    rewrite (Z.compare_antisym ex ey);
    destruct (Z.compare ex ey); cbn [CompOpp]; try reflexivity; f_equal.
  - f_equal. symmetry. exact (Pos.compare_cont_antisym mx my Eq).
  - symmetry. exact (Pos.compare_cont_antisym mx my Eq).
Qed.

Lemma SFcompare_of_numbers (x y : spec_float) (c : comparison) :
  SFcompare x y = Some c -> SFcompare x x = Some Eq /\ SFcompare y y = Some Eq.
Proof.
  assert (Hself : forall z, z <> S754_nan -> SFcompare z z = Some Eq).
  { intros [s | s | | s m e] Hz; cbn [SFcompare]; try reflexivity.
    - now destruct s.
    - contradiction.
    - rewrite Z.compare_refl, Pos.compare_cont_refl. now destruct s. }
  intros Hc. split; apply Hself; intros Hnan; subst.
  - discriminate.
  - destruct x; discriminate.
Qed.

#[export] Instance float_ComparisonLaws : ComparisonLaws float.
Proof.
  constructor; cbn [Fleb Fltb float_Scalar]; intros x y.
  - rewrite !FloatAxioms.leb_spec. unfold SFleb.
    destruct (SFcompare (Prim2SF x) (Prim2SF y)) as [c|] eqn:Ec; [|discriminate].
    intros _. destruct (SFcompare_of_numbers _ _ Ec) as [-> ->]. now split.
  - rewrite !FloatAxioms.leb_spec, FloatAxioms.ltb_spec. unfold SFleb, SFltb.
    rewrite (SFcompare_antisym (Prim2SF x) (Prim2SF y)).
    destruct (SFcompare (Prim2SF x) (Prim2SF x)) as [cx|] eqn:Ex; [|discriminate].
    destruct (SFcompare (Prim2SF y) (Prim2SF y)) as [cy|] eqn:Ey;
      [|intros _; discriminate].
    intros _ _.
    destruct (SFcompare (Prim2SF x) (Prim2SF y)) as [[| |]|] eqn:Exy;
      cbn [option_map CompOpp negb]; try reflexivity.
    exfalso. destruct (Prim2SF x), (Prim2SF y); discriminate.
Qed.

#[export] Instance OrderLaws_ComparisonLaws
  (F : Type) `{Scalar F} (HO : OrderLaws F) : ComparisonLaws F.
Proof.
  constructor.
  - intros x y _. split; apply Fleb_refl.
  - intros x y _ _. apply Fltb_Fleb.
Qed.

(** ** Bounds of the multipliers, NaN included *)

Section BoundsUnlessNaN.
Context {F : Type} `{Scalar F} {HC : ComparisonLaws F}.
Local Open Scope scalar_scope.

(** Between ordered bounds, [Constrain] lands between the bounds unless it
    lets through a value that is not a number. *)
Lemma Constrain_within_unless_nan (lo v hi : F) :
  (lo <=? hi) = true ->
  not_a_number (Constrain lo v hi)
  \/ ((lo <=? Constrain lo v hi) = true /\ (Constrain lo v hi <=? hi) = true).
Proof.
  intros Hbounds. destruct (Fleb_of_numbers lo hi Hbounds) as [Hlo Hhi].
  unfold Constrain, Fgtb.
  destruct (v <? lo) eqn:Elo; [right; now split|].
  destruct (hi <? v) eqn:Ehi; [right; now split|].
  destruct (v <=? v) eqn:Ev; [right | left; exact Ev].
  rewrite (Fltb_Fleb_of_numbers v lo Ev Hlo) in Elo.
  rewrite (Fltb_Fleb_of_numbers hi v Hhi Ev) in Ehi.
  apply negb_false_iff in Elo. apply negb_false_iff in Ehi. now split.
Qed.

(** A property that every clamped value has holds of every component that a
    pass has visited. *)
Lemma pgs_pass_from_visited (Q : nat -> F -> Prop)
  (n : nat) (a rhs lambdaMin lambdaMax : list F) :
  forall (todo done : list F) (norm : F),
    (forall i v, (i < length done + length todo)%nat ->
                 Q i (Constrain (get lambdaMin i) v (get lambdaMax i))) ->
    (forall i, (i < length done)%nat -> Q i (get done i)) ->
    forall i, (i < length done + length todo)%nat ->
      Q i (get (fst (pgs_pass_from n a rhs lambdaMin lambdaMax done todo norm)) i).
Proof.
  induction todo as [|x rest IH]; intros done norm Hclamp Hdone i Hi.
  - simpl in *. apply Hdone. lia.
  - cbn [pgs_pass_from]. cbn [length] in Hclamp, Hi.
    apply IH.
    + intros j v Hj. apply Hclamp. rewrite length_app in Hj. cbn [length] in Hj. lia.
    + intros j Hj. rewrite length_app in Hj. cbn [length] in Hj.
      destruct (Nat.eq_dec j (length done)) as [->|Hneq].
      * rewrite get_middle. apply Hclamp. lia.
      * rewrite get_app_l by lia. apply Hdone. lia.
    + rewrite length_app. cbn [length]. lia.
Qed.

Lemma save_multipliers_related (R : F -> F -> F -> Prop)
  (ms : list (LagrangeMultiplier F)) :
  forall (pre lambda : list F),
    length lambda = length ms ->
    (forall i, (i < length ms)%nat ->
       R (get (map (@Min F) ms) i) (get lambda i) (get (map (@Max F) ms) i)) ->
    Forall (fun c => R (Min c) (value c) (Max c))
           (save_multipliers ms (pre ++ lambda) (length pre)).
Proof.
  induction ms as [|c ms IH]; intros pre [|x lambda] Hlen Hin; try discriminate.
  - constructor.
  - cbn [save_multipliers]. rewrite get_middle. constructor.
    + exact (Hin 0%nat (Nat.lt_0_succ _)).
    + specialize (IH (pre ++ [x]) lambda).
      rewrite <- app_assoc, length_app, Nat.add_1_r in IH. simpl in IH.
      apply IH; [simpl in Hlen; lia|].
      intros i Hi. apply (Hin (S i)). simpl. lia.
Qed.

Lemma bounds_ordered_by_index (ms : list (LagrangeMultiplier F)) :
  Forall (fun c => (Min c <=? Max c) = true) ms ->
  forall i, (i < length ms)%nat ->
    (get (map (@Min F) ms) i <=? get (map (@Max F) ms) i) = true.
Proof.
  induction 1 as [|c ms Hc _ IH]; intros [|i] Hi; simpl in Hi; try lia.
  - exact Hc.
  - apply IH. lia.
Qed.

(** With at least one contact and ordered bounds, every multiplier written
    back is not a number or lies between the bounds of its constraint. *)
Lemma written_multipliers_within_unless_nan
  (dt : F) (fdm : FGFDMExec F) (m : FGAccelerations F) :
  multipliers fdm <> [] ->
  Forall (fun c => (Min c <=? Max c) = true) (multipliers fdm) ->
  Forall (fun c => not_a_number (value c) \/ within_bounds c)
         (multipliers (snd (ResolveFrictionForces dt fdm m))).
Proof.
  intros Hne Hordered.
  rewrite (ResolveFrictionForces_contact dt fdm m Hne).
  cbn [snd record_call set_multipliers multipliers].
  pose proof (save_multipliers_related
                (fun lo v hi => not_a_number v \/ ((lo <=? v) = true /\ (v <=? hi) = true))
                (multipliers fdm) [] (solve_multipliers dt fdm m)
                (solve_multipliers_length dt fdm m)) as Hsaved.
  cbn [app length] in Hsaved. apply Hsaved. clear Hsaved.
  intros i Hi. rewrite solve_multipliers_eq.
  destruct (gauss_seidel_runs (fst (contact_system dt fdm m))
              (snd (contact_system dt fdm m))
              (map (@Min F) (multipliers fdm)) (map (@Max F) (multipliers fdm))
              49 (map (@value F) (multipliers fdm))) as (k & Hk & Hrun & _).
  rewrite length_map in Hrun. rewrite Hrun.
  destruct k as [|k]; [lia|]. cbn [passes]. unfold pgs_pass.
  apply (pgs_pass_from_visited
           (fun i v => not_a_number v
                       \/ ((get (map (@Min F) (multipliers fdm)) i <=? v) = true
                           /\ (v <=? get (map (@Max F) (multipliers fdm)) i) = true))).
  - cbn [length Nat.add]. rewrite passes_length, length_map.
    intros j v Hj. apply Constrain_within_unless_nan.
    now apply bounds_ordered_by_index.
  - cbn [length]. intros j Hj. lia.
  - cbn [length Nat.add]. now rewrite passes_length, length_map.
Qed.

End BoundsUnlessNaN.

(** C8, as amended: on binary64, with at least one contact and the lower
    bound of every constraint not above its upper bound, every multiplier
    written back is not a number (NaN) or lies between the bounds of its
    constraint, whatever value was stored there before; the bounds themselves
    are not written. *)
Theorem written_multipliers_bounded_unless_nan
  (dt : float) (fdm : FGFDMExec float) (m : FGAccelerations float) :
  multipliers fdm <> [] ->
  Forall (fun c => Fleb (Min c) (Max c) = true) (multipliers fdm) ->
  Forall (fun c => not_a_number (value c) \/ within_bounds c)
         (multipliers (snd (ResolveFrictionForces dt fdm m)))
  /\ map (@Min float) (multipliers (snd (ResolveFrictionForces dt fdm m)))
     = map (@Min float) (multipliers fdm)
  /\ map (@Max float) (multipliers (snd (ResolveFrictionForces dt fdm m)))
     = map (@Max float) (multipliers fdm).
Proof.
  intros Hne Hordered. split.
  - now apply written_multipliers_within_unless_nan.
  - rewrite (ResolveFrictionForces_contact dt fdm m Hne).
    cbn [snd record_call set_multipliers multipliers].
    apply save_multipliers_keeps_bounds.
Qed.

(** C8 on the scenario, on binary64: bounds 0 and 50 and a stored multiplier
    of 200 outside them; the value written back is the upper bound. *)
Lemma written_multipliers_bounded_unless_nan_run :
  Forall (fun c : LagrangeMultiplier float => not_a_number (value c) \/ within_bounds c)
         (multipliers (snd (ResolveFrictionForces F0
                              (ground [wheel F0 (of_Z 50) (of_Z 200)])
                              (falling_model gtWGS84))))
  /\ map (@value float)
         (multipliers (snd (ResolveFrictionForces F0
                              (ground [wheel F0 (of_Z 50) (of_Z 200)])
                              (falling_model gtWGS84))))
     = [of_Z 50].
Proof.
  split.
  - refine (proj1 (written_multipliers_bounded_unless_nan F0
                     (ground [wheel F0 (of_Z 50) (of_Z 200)]) (falling_model gtWGS84)
                     _ _)).
    + discriminate.
    + repeat constructor.
  - vm_compute. reflexivity.
Defined.

(** C8 as stated fails in two ways on binary64.  With crossed bounds, Min = 1
    and Max = 0, the value written back is 0, under Min.  With ordered bounds,
    Min = 0 and Max = 1000000, and a stored multiplier of plus infinity, the
    first pass computes infinity minus infinity and [Constrain] lets the NaN
    through: the value written back is not a number and is not between the
    bounds. *)
Lemma bounds_escaped_by_crossing_or_nan :
  (multipliers (ground [wheel (F1 : float) F0 F0]) <> []
   /\ map (@value float)
          (multipliers (snd (ResolveFrictionForces F0 (ground [wheel F1 F0 F0])
                                                   (falling_model gtWGS84))))
      = [F0]
   /\ ~ Forall (@within_bounds float _)
         (multipliers (snd (ResolveFrictionForces F0 (ground [wheel F1 F0 F0])
                                                  (falling_model gtWGS84)))))
  /\ (Forall (fun c : LagrangeMultiplier float => Fleb (Min c) (Max c) = true)
             (multipliers (ground [wheel F0 (of_Z 1000000) (Fdiv F1 F0)]))
      /\ Forall (fun c : LagrangeMultiplier float => not_a_number (value c))
                (multipliers
                   (snd (ResolveFrictionForces F0
                           (ground [wheel F0 (of_Z 1000000) (Fdiv F1 F0)])
                           (falling_model gtWGS84))))
      /\ ~ Forall (@within_bounds float _)
            (multipliers
               (snd (ResolveFrictionForces F0
                       (ground [wheel F0 (of_Z 1000000) (Fdiv F1 F0)])
                       (falling_model gtWGS84))))).
Proof.
  split; [exact crossed_bounds_are_not_respected|].
  split; [repeat constructor|]. split.
  - vm_compute. repeat constructor.
  - intro Hall. inversion Hall as [|c cs [Hlow _] _ Ecs]; subst.
    vm_compute in Hlow. discriminate.
Qed.

(** ** The closed formula of a single contact on binary64 *)

(** C4 as stated fails on binary64 by rounding.  On the yaw scenario the
    effective mass is 3 and the acceleration along the constraint is -5: the
    source computes the right hand side as 5 * (1/3) and writes that value,
    which is one unit in the last place under the quotient 5/3 of the closed
    formula. *)
Lemma binary64_solution_is_not_the_closed_formula :
  let c : LagrangeMultiplier float := yaw_pad (Fopp (of_Z 1000)) (of_Z 1000) F0 in
  let m : FGAccelerations float := yawing_model in
  let fdm := ground [c] in
  let A := Fadd (DotProduct (ForceJacobian c) (vdiv (ForceJacobian c) (Mass (inp m))))
                (DotProduct (MomentJacobian c) (mvmul (Jinv (inp m)) (MomentJacobian c))) in
  let closed :=
    Constrain (Min c)
              (Fdiv (Fopp (Fadd (DotProduct (ForceJacobian c) (vUVWdot m))
                                (DotProduct (MomentJacobian c) (vPQRdot m)))) A)
              (Max c) in
  multipliers fdm = [c]
  /\ A = of_Z 3
  /\ closed = Fdiv (of_Z 5) (of_Z 3)
  /\ map (@value float) (multipliers (snd (ResolveFrictionForces F0 fdm m)))
     = [Fmul (of_Z 5) (Fdiv F1 (of_Z 3))]
  /\ Fltb (Fmul (of_Z 5) (Fdiv F1 (of_Z 3)) : float) (Fdiv (of_Z 5) (of_Z 3)) = true
  /\ map (@value float) (multipliers (snd (ResolveFrictionForces F0 fdm m)))
     <> [closed].
Proof.
  cbv zeta. split; [reflexivity|]. split; [vm_compute; reflexivity|].
  split; [vm_compute; reflexivity|]. split; [vm_compute; reflexivity|].
  split; [vm_compute; reflexivity|].
  intro Heq.
  apply (f_equal (fun l => match l with
                           | [x] => PrimFloat.ltb x (PrimFloat.div (float_of_Z 5)
                                                                   (float_of_Z 3))
                           | _ => false
                           end)) in Heq.
  vm_compute in Heq. discriminate.
Qed.
